(** * A verification model of the poasta partial-order alignment library

    The repository exposes the C interface [src/poasta.h]: an opaque
    [PoastaGraph] handle, [poasta_create_graph], [poasta_add_sequence],
    [poasta_add_sequence_with_weight], [poasta_get_msa] and
    [poasta_get_gfa].  The engine behind the header (graph store, aligner,
    graph mutator, MSA builder and GFA serializer) is not part of the
    sources, so those components are modelled from the specification of
    the repository and marked as such below.  Sequences are lists of
    characters, scores are integers ([Z]), node identifiers are [nat]. *)

From Stdlib Require Import List Arith ZArith Lia Bool Ascii Relations.
Import ListNotations.
Open Scope Z_scope.

(** ** Data model *)

(** Modelled from the spec: the Node of the graph store (symbol,
    monotonically increasing identifier, aggregate weight). *)
Record node := mkNode {
  node_id : nat;
  node_sym : ascii;
  node_weight : nat
}.

(** Modelled from the spec: a directed Edge carrying the number of
    sequences (weighted) traversing it. *)
Record edge := mkEdge {
  edge_from : nat;
  edge_to : nat;
  edge_weight : nat
}.

(** Modelled from the spec: a Sequence Record (residues, weight and the
    ordered node identifiers of its alignment path). *)
Record seq_record := mkRecord {
  rec_seq : list ascii;
  rec_weight : nat;
  rec_path : list nat
}.

(** Modelled from the spec: the Graph Store.  The start and end sentinels
    are implicit nodes: every sequence is threaded between them, so its
    path keeps an edge from the start sentinel to its first node and one
    from its last node to the end sentinel, and like every edge these are
    never removed; they are read off the recorded paths.  In the empty
    graph the two sentinels are joined by the implicit gap.  [g_order] is
    the incrementally maintained topological order. *)
Record graph := mkGraph {
  g_nodes : list node;
  g_edges : list edge;
  g_order : list nat;
  g_records : list seq_record
}.

(** [poasta_create_graph]: a new empty graph. *)
Definition poasta_create_graph : graph := mkGraph [] [] [] [].

(** Scoring parameters as the aligner sees them (penalty magnitudes). *)
Record scoring := mkScoring {
  mismatch_score : Z;
  gap_open : Z;
  gap_extend : Z
}.

(** Modelled from the spec: "match contributes a fixed positive score";
    the interface has no parameter for it. *)
Definition match_score : Z := 1.

(** Status codes returned by the insertion operations. *)
Inductive status := Ok | InvalidSequence | InvalidScoring | GraphCorrupted.

(** ** Graph store queries *)

Definition node_symbol (g : graph) (n : nat) : ascii :=
  match find (fun x => Nat.eqb (node_id x) n) (g_nodes g) with
  | Some x => node_sym x
  | None => " "%char
  end.

(** Identifiers of the predecessors of node [n]. *)
Definition pred_ids (g : graph) (n : nat) : list nat :=
  map edge_from (filter (fun e => Nat.eqb (edge_to e) n) (g_edges g)).

(** Modelled from the spec: the successors of the start sentinel, the
    first node of every recorded path. *)
Definition start_ids (g : graph) : list nat :=
  flat_map (fun r => match rec_path r with [] => [] | n :: _ => [n] end) (g_records g).

(** Modelled from the spec: the predecessors of the end sentinel, the last
    node of every recorded path. *)
Definition end_ids (g : graph) : list nat :=
  flat_map (fun r => match rev (rec_path r) with [] => [] | n :: _ => [n] end) (g_records g).

(** ** Aligner *)

(** The three score matrices: M (match/mismatch), Y (gap in graph,
    deletion), X (gap in sequence, insertion). *)
Inductive mat := MM | MY | MX.

(** A DP row: the start sentinel or a graph node. *)
Inductive vtx := VStart | VNode (n : nat).

Definition cell : Type := (mat * vtx * nat)%type.

(** One alignment column of the traceback. *)
Inductive op := OMatch (n : nat) | OIns | ODel (n : nat).

(** Modelled from the spec: the predecessor rows of a node, the start
    sentinel when the node follows it, then its graph predecessors. *)
Definition preds (g : graph) (n : nat) : list vtx :=
  (if existsb (Nat.eqb n) (start_ids g) then [VStart] else []) ++ map VNode (pred_ids g n).

(** Modelled from the spec: the rows leading into the end sentinel; in
    the empty graph the implicit gap joins it to the start sentinel. *)
Definition end_preds (g : graph) : list vtx :=
  match end_ids g with
  | [] => [VStart]
  | l => map VNode l
  end.

Definition mat_rank (m : mat) : nat :=
  match m with MM => 0 | MY => 1 | MX => 2 end%nat.

Definition vtx_rank (v : vtx) : nat :=
  match v with VStart => 0 | VNode n => S n end%nat.

(** Tie-break key: first the matrix in the order M > Y > X, then the
    lowest node identifier (the start sentinel comes first). *)
Definition key_lt (c1 c2 : cell) : bool :=
  let '(m1, v1, _) := c1 in
  let '(m2, v2, _) := c2 in
  Nat.ltb (mat_rank m1) (mat_rank m2)
  || (Nat.eqb (mat_rank m1) (mat_rank m2) && Nat.ltb (vtx_rank v1) (vtx_rank v2)).

(** Pick the candidate of maximum score, ties broken by [key_lt]. *)
Definition better (a b : cell * Z) : bool :=
  Z.ltb (snd b) (snd a) || (Z.eqb (snd a) (snd b) && key_lt (fst a) (fst b)).

Definition choose_step (acc : option (cell * Z)) (x : cell * option Z)
  : option (cell * Z) :=
  match snd x with
  | None => acc
  | Some z =>
      match acc with
      | None => Some (fst x, z)
      | Some a => if better (fst x, z) a then Some (fst x, z) else acc
      end
  end.

Definition choose (l : list (cell * option Z)) : option (cell * Z) :=
  fold_left choose_step l None.

Section Aligner.

Variable g : graph.
Variable s : list ascii.
Variable p : scoring.

Definition residue (j : nat) : ascii := nth j s " "%char.

Definition subst_score (c : ascii) (n : nat) : Z :=
  if Ascii.eqb c (node_symbol g n) then match_score else - mismatch_score p.

(** The recurrence of the spec, as the list of candidate predecessor
    cells of a cell with the score contributed by the step:
    - M[v][j] = max over predecessors u of best(M,Y,X)[u][j-1] + s(seq[j], v)
    - Y[v][j] = max over predecessors u of max(M[u][j] - go, Y[u][j] - ge)
    - X[v][j] = max(M[v][j-1] - go, X[v][j-1] - ge)
    The start sentinel has M[start][0] = 0 and X[start][j]. *)
Definition cands (c : cell) : list (cell * Z) :=
  match c with
  | (MX, v, S j) => [((MM, v, j), - gap_open p); ((MX, v, j), - gap_extend p)]
  | (MM, VNode n, S j) =>
      flat_map (fun u => let d := subst_score (residue j) n in
                         [((MM, u, j), d); ((MY, u, j), d); ((MX, u, j), d)])
               (preds g n)
  | (MY, VNode n, j) =>
      flat_map (fun u => [((MM, u, j), - gap_open p); ((MY, u, j), - gap_extend p)])
               (preds g n)
  | _ => []
  end.

Definition is_origin (c : cell) : bool :=
  match c with (MM, VStart, O) => true | _ => false end.

(** The column emitted by the traceback when it leaves a cell. *)
Definition emit (c : cell) : op :=
  match c with
  | (MM, VNode n, _) => OMatch n
  | (MY, VNode n, _) => ODel n
  | _ => OIns
  end.

(** The DP score of a cell ([None] is minus infinity); [fuel] bounds the
    depth of the recursion, which follows predecessors in the DAG. *)
Fixpoint score (fuel : nat) (c : cell) : option Z :=
  match fuel with
  | O => None
  | S f =>
      if is_origin c then Some 0 else
      option_map snd
        (choose (map (fun cd => (fst cd, option_map (fun z => z + snd cd) (score f (fst cd))))
                     (cands c)))
  end.

(** The traceback: from a cell, follow the best candidate backwards; the
    result lists the alignment columns from the first residue on. *)
Fixpoint traceback (fuel : nat) (c : cell) : option (list op) :=
  match fuel with
  | O => None
  | S f =>
      if is_origin c then Some [] else
      match choose (map (fun cd => (fst cd, option_map (fun z => z + snd cd) (score f (fst cd))))
                        (cands c)) with
      | None => None
      | Some (c', _) =>
          match traceback f c' with
          | None => None
          | Some ops => Some (ops ++ [emit c])
          end
      end
  end.

(** Cells of the end sentinel at the end of the sequence. *)
Definition end_cells : list cell :=
  flat_map (fun u => [(MM, u, length s); (MY, u, length s); (MX, u, length s)])
           (end_preds g).

Definition align_fuel : nat := (length (g_nodes g) + length s + 2)%nat.

(** The best end cell and its score. *)
Definition final_cell : option (cell * Z) :=
  choose (map (fun c => (c, score align_fuel c)) end_cells).

(** The aligner: the maximum score and the traceback path. *)
Definition align : option (Z * list op) :=
  match final_cell with
  | None => None
  | Some (c, z) =>
      match traceback align_fuel c with
      | None => None
      | Some ops => Some (z, ops)
      end
  end.

(** Score of an alignment path, summed column by column: a residue
    against a node scores match or minus mismatch, the first column of a
    gap costs gap_open and every further column of the same gap gap_extend. *)
Fixpoint path_score_from (prev : option op) (i : nat) (ops : list op) : Z :=
  match ops with
  | [] => 0
  | o :: r =>
      match o with
      | OMatch n => subst_score (residue i) n + path_score_from (Some o) (S i) r
      | OIns =>
          (match prev with Some OIns => - gap_extend p | _ => - gap_open p end)
          + path_score_from (Some o) (S i) r
      | ODel _ =>
          (match prev with Some (ODel _) => - gap_extend p | _ => - gap_open p end)
          + path_score_from (Some o) i r
      end
  end.

Definition path_score (ops : list op) : Z := path_score_from None 0 ops.

End Aligner.

(** ** Graph mutator *)

(** Modelled from the spec: [addEdge(from, to)]; an existing edge has its
    weight incremented by the requested amount instead of being duplicated. *)
Definition add_edge (g : graph) (a b w : nat) : graph :=
  let same e := Nat.eqb (edge_from e) a && Nat.eqb (edge_to e) b in
  if existsb same (g_edges g) then
    mkGraph (g_nodes g)
            (map (fun e => if same e then mkEdge a b (edge_weight e + w) else e) (g_edges g))
            (g_order g) (g_records g)
  else mkGraph (g_nodes g) (g_edges g ++ [mkEdge a b w]) (g_order g) (g_records g).

(** Insert [k] right after [q] in a topological order. *)
Fixpoint insert_after (q k : nat) (l : list nat) : list nat :=
  match l with
  | [] => [k]
  | x :: r => if Nat.eqb x q then x :: k :: r else x :: insert_after q k r
  end.

Definition bump_node (g : graph) (n w : nat) : graph :=
  mkGraph (map (fun x => if Nat.eqb (node_id x) n
                         then mkNode n (node_sym x) (node_weight x + w) else x) (g_nodes g))
          (g_edges g) (g_order g) (g_records g).

(** Edge from the previously used node of the path, if any. *)
Definition link (g : graph) (prev : option nat) (n w : nat) : graph :=
  match prev with
  | None => g
  | Some q => add_edge g q n w
  end.

(** Modelled from the spec: [addNode(symbol)]; the new node gets the next
    identifier and is placed in the order right after the previous node of
    the path (first when there is none). *)
Definition add_node (g : graph) (prev : option nat) (c : ascii) (w : nat) : graph * nat :=
  let k := List.length (g_nodes g) in
  (mkGraph (g_nodes g ++ [mkNode k c w]) (g_edges g)
           (match prev with None => k :: g_order g | Some q => insert_after q k (g_order g) end)
           (g_records g), k).

(** State of the mutator while it walks the traceback. *)
Record mstate := mkMState {
  ms_graph : graph;
  ms_prev : option nat;
  ms_path : list nat;
  ms_pos : nat
}.

Section Mutator.

Variable s : list ascii.
Variable w : nat.

Definition use_node (st : mstate) (g : graph) (n : nat) : mstate :=
  mkMState (link g (ms_prev st) n w) (Some n) (ms_path st ++ [n]) (S (ms_pos st)).

(** Modelled from the spec: one column of the alignment applied to the
    graph.  A residue against a node with the same symbol reuses the node;
    a residue against a different symbol (substitution) or against no node
    (insertion) gets a brand-new node; a deleted node is left alone. *)
Definition mutate_step (st : mstate) (o : op) : mstate :=
  let g := ms_graph st in
  let c := nth (ms_pos st) s " "%char in
  match o with
  | OMatch n =>
      if Ascii.eqb (node_symbol g n) c then use_node st (bump_node g n w) n
      else let '(g', k) := add_node g (ms_prev st) c w in use_node st g' k
  | OIns => let '(g', k) := add_node g (ms_prev st) c w in use_node st g' k
  | ODel _ => st
  end.

Definition mutate (g : graph) (ops : list op) : graph :=
  let st := fold_left mutate_step ops (mkMState g None [] 0) in
  let g' := ms_graph st in
  mkGraph (g_nodes g') (g_edges g') (g_order g')
          (g_records g' ++ [mkRecord s w (ms_path st)]).

End Mutator.

(** ** Insertion of a sequence *)

(** Modelled from the spec: the supported alphabet, taken as the upper
    case letters (IUPAC nucleotide and amino acid codes). *)
Definition is_supported (c : ascii) : bool :=
  Nat.leb 65 (nat_of_ascii c) && Nat.leb (nat_of_ascii c) 90.

Definition valid_sequence (s : list ascii) : bool :=
  match s with [] => false | _ => forallb is_supported s end.

(** Modelled from the spec: the inconsistent scoring configuration. *)
Definition valid_scoring (p : scoring) : bool :=
  Z.leb (gap_extend p) (gap_open p).

(** Modelled from the spec: AddSequenceWeighted.  Validation happens
    before any mutation; the aligner's result is then committed. *)
Definition add_sequence_weighted (g : graph) (s : list ascii) (w : nat) (p : scoring)
  : status * graph :=
  if negb (valid_sequence s) then (InvalidSequence, g)
  else if negb (valid_scoring p) then (InvalidScoring, g)
  else match align g s p with
       | None => (GraphCorrupted, g)
       | Some (_, ops) => (Ok, mutate s w g ops)
       end.

(** AddSequence: weight 1. *)
Definition add_sequence (g : graph) (s : list ascii) (p : scoring) : status * graph :=
  add_sequence_weighted g s 1 p.

(** ** MSA builder *)

Definition gap_char : ascii := "-"%char.

(** Modelled from the spec: one row per sequence record; the columns are
    the nodes in topological order, a node off the record's path is a gap. *)
Definition msa_row (g : graph) (r : seq_record) : list ascii :=
  map (fun n => if existsb (Nat.eqb n) (rec_path r) then node_symbol g n else gap_char)
      (g_order g).

Definition get_msa (g : graph) : list (list ascii) := map (msa_row g) (g_records g).

(** ** Traceback bookkeeping used by the proofs *)

(** Residues consumed by an alignment path. *)
Fixpoint consumed (ops : list op) : nat :=
  match ops with
  | [] => O
  | OMatch _ :: r | OIns :: r => S (consumed r)
  | ODel _ :: r => consumed r
  end.

Definition last_op (ops : list op) : option op :=
  match rev ops with [] => None | o :: _ => Some o end.

(** The graph row a path ends in: the last node it matched or deleted. *)
Fixpoint last_vtx (v : vtx) (ops : list op) : vtx :=
  match ops with
  | [] => v
  | OIns :: r => last_vtx v r
  | (OMatch n | ODel n) :: r => last_vtx (VNode n) r
  end.

(** The nodes of a path follow the edges of the graph (from the start
    sentinel for the first one). *)
Fixpoint walk (g : graph) (v : vtx) (ops : list op) : Prop :=
  match ops with
  | [] => True
  | OIns :: r => walk g v r
  | (OMatch n | ODel n) :: r => In v (preds g n) /\ walk g (VNode n) r
  end.

Definition is_ins (o : option op) : bool :=
  match o with Some OIns => true | _ => false end.

Definition is_del (o : option op) : bool :=
  match o with Some (ODel _) => true | _ => false end.

(** The kind of the last column of a path ending in a cell of each matrix. *)
Definition ends_in (m : mat) (ops : list op) : Prop :=
  match m with
  | MM => is_ins (last_op ops) = false /\ is_del (last_op ops) = false
  | MY => is_del (last_op ops) = true
  | MX => is_ins (last_op ops) = true
  end.

(** ** Serializer (GFA) *)

Definition tab : ascii := ascii_of_nat 9.
Definition newline : ascii := ascii_of_nat 10.

Definition is_digit (c : ascii) : bool :=
  Nat.leb 48 (nat_of_ascii c) && Nat.leb (nat_of_ascii c) 57.

(** Decimal notation of a number, most significant digit first. *)
Fixpoint digits_aux (fuel n : nat) (acc : list ascii) : list ascii :=
  match fuel with
  | O => acc
  | S f =>
      let acc' := ascii_of_nat (48 + n mod 10) :: acc in
      if Nat.ltb n 10 then acc' else digits_aux f (n / 10) acc'
  end.

Definition nat_to_dec (n : nat) : list ascii := digits_aux (S n) n [].

Definition dec_step (a : nat) (c : ascii) : nat := (a * 10 + (nat_of_ascii c - 48))%nat.

Definition dec_to_nat (l : list ascii) : option nat :=
  match l with
  | [] => None
  | _ => if forallb is_digit l then Some (fold_left dec_step l O) else None
  end.

Fixpoint ascii_list_eqb (a b : list ascii) : bool :=
  match a, b with
  | [], [] => true
  | x :: a', y :: b' => Ascii.eqb x y && ascii_list_eqb a' b'
  | _, _ => false
  end.

(** Split a text at every occurrence of a separator. *)
Fixpoint split_on (sep : ascii) (l : list ascii) : list (list ascii) :=
  match l with
  | [] => [[]]
  | c :: r =>
      if Ascii.eqb c sep then [] :: split_on sep r
      else match split_on sep r with
           | [] => [[c]]
           | x :: xs => (c :: x) :: xs
           end
  end.

(** Join fields with a separator. *)
Fixpoint join (sep : ascii) (l : list (list ascii)) : list ascii :=
  match l with
  | [] => []
  | [x] => x
  | x :: r => x ++ sep :: join sep r
  end.

Definition str_S : list ascii := ["S"%char].
Definition str_L : list ascii := ["L"%char].
Definition str_P : list ascii := ["P"%char].
Definition str_H : list ascii := ["H"%char].
Definition str_plus : list ascii := ["+"%char].
Definition str_0M : list ascii := ["0"%char; "M"%char].
Definition str_RC : list ascii := ["R"%char; "C"%char; ":"%char; "i"%char; ":"%char].
Definition str_header : list ascii := ["V"%char; "N"%char; ":"%char; "Z"%char; ":"%char;
                                       "1"%char; "."%char; "0"%char].
Definition str_seq : list ascii := ["s"%char; "e"%char; "q"%char].
Definition str_star : list ascii := ["*"%char].

(** Modelled from the spec: one segment record per node (identifier and
    symbol), one link record per edge (from, to, weight as the read count
    tag) and one path record per sequence record, after a header. *)
Definition segment_line (n : node) : list ascii :=
  join tab [str_S; nat_to_dec (node_id n); [node_sym n]].

Definition link_line (e : edge) : list ascii :=
  join tab [str_L; nat_to_dec (edge_from e); str_plus; nat_to_dec (edge_to e); str_plus;
            str_0M; str_RC ++ nat_to_dec (edge_weight e)].

Definition path_line (k : nat) (r : seq_record) : list ascii :=
  join tab [str_P; str_seq ++ nat_to_dec k;
            join ","%char (map (fun n => nat_to_dec n ++ str_plus) (rec_path r)); str_star].

Fixpoint path_lines (k : nat) (rs : list seq_record) : list (list ascii) :=
  match rs with
  | [] => []
  | r :: rs' => path_line k r :: path_lines (S k) rs'
  end.

Definition gfa_lines (g : graph) : list (list ascii) :=
  join tab [str_H; str_header]
  :: map segment_line (g_nodes g) ++ map link_line (g_edges g) ++ path_lines 0 (g_records g).

Definition get_gfa (g : graph) : list ascii :=
  flat_map (fun l => l ++ [newline]) (gfa_lines g).

(** A parsed GFA record. *)
Inductive gfa_rec := GSeg (n : nat) (c : ascii) | GLink (a b w : nat) | GOther.

Definition parse_line (l : list ascii) : option gfa_rec :=
  match split_on tab l with
  | [t; i; [c]] =>
      if ascii_list_eqb t str_S
      then match dec_to_nat i with Some n => Some (GSeg n c) | None => None end
      else None
  | [t; a; o1; b; o2; cg; rc] =>
      if ascii_list_eqb t str_L && ascii_list_eqb o1 str_plus && ascii_list_eqb o2 str_plus
         && ascii_list_eqb cg str_0M && ascii_list_eqb (firstn 5 rc) str_RC
      then match dec_to_nat a, dec_to_nat b, dec_to_nat (skipn 5 rc) with
           | Some a', Some b', Some w' => Some (GLink a' b' w')
           | _, _, _ => None
           end
      else None
  | t :: _ => if ascii_list_eqb t str_P || ascii_list_eqb t str_H then Some GOther else None
  | [] => None
  end.

(** One line of a GFA text added to the records read from the lines after it. *)
Definition parse_step (l : list ascii) (acc : option (list (nat * ascii) * list (nat * nat * nat)))
  : option (list (nat * ascii) * list (nat * nat * nat)) :=
  match acc with
  | None => None
  | Some (ss, ls) =>
      match l with
      | [] => Some (ss, ls)
      | _ => match parse_line l with
             | Some (GSeg n c) => Some ((n, c) :: ss, ls)
             | Some (GLink a b w) => Some (ss, (a, b, w) :: ls)
             | Some GOther => Some (ss, ls)
             | None => None
             end
      end
  end.

(** The graph read back from a GFA text: segments and weighted links. *)
Definition parse_gfa (txt : list ascii) : option (list (nat * ascii) * list (nat * nat * nat)) :=
  fold_right parse_step (Some ([], [])) (split_on newline txt).

(** ** The C interface *)

(** Conversion of a caller's integer argument to [uint8_t] and [uint32_t]. *)
Definition to_u8 (x : Z) : Z := x mod 256.
Definition to_u32 (x : Z) : Z := x mod 2 ^ 32.

(** [poasta_add_sequence_with_weight(graph, seq, len, weight, mismatch_score,
    gap_open, gap_extend)]: the arguments are converted to the parameter
    types of the header before the core sees them. *)
Definition poasta_add_sequence_with_weight (g : graph) (sq : list ascii)
  (weight mismatch gopen gextend : Z) : status * graph :=
  add_sequence_weighted g sq (Z.to_nat (to_u32 weight))
    (mkScoring (to_u8 mismatch) (to_u8 gopen) (to_u8 gextend)).

(** [poasta_add_sequence(graph, seq, len, mismatch_score, gap_open, gap_extend)]. *)
Definition poasta_add_sequence (g : graph) (sq : list ascii) (mismatch gopen gextend : Z)
  : status * graph :=
  add_sequence g sq (mkScoring (to_u8 mismatch) (to_u8 gopen) (to_u8 gextend)).

(** [poasta_get_msa] and [poasta_get_gfa]. *)
Definition poasta_get_msa (g : graph) : list (list ascii) := get_msa g.
Definition poasta_get_gfa (g : graph) : list ascii := get_gfa g.

(** ** Auxiliary definitions for the proofs *)

(** A graph holding one chain [0 -> 1 -> ... -> i-1] spelling a prefix of [s],
    with node weights [nw] and edge weights [ew]. *)
Definition chain_graph_gen (s : list ascii) (i : nat) (nw ew : nat -> nat)
  (recs : list seq_record) : graph :=
  mkGraph (map (fun j => mkNode j (nth j s " "%char) (nw j)) (seq 0 i))
          (map (fun j => mkEdge j (S j) (ew j)) (seq 0 (i - 1)))
          (seq 0 i) recs.

Definition chain_graph (s : list ascii) (k : nat) (recs : list seq_record) : graph :=
  chain_graph_gen s (List.length s) (fun _ => k) (fun _ => k) recs.

Definition count_match (ops : list op) : nat :=
  List.length (filter (fun o => match o with OMatch _ => true | _ => false end) ops).
Definition count_ins (ops : list op) : nat :=
  List.length (filter (fun o => match o with OIns => true | _ => false end) ops).
Definition count_del (ops : list op) : nat :=
  List.length (filter (fun o => match o with ODel _ => true | _ => false end) ops).

(** The nodes of a path, in order. *)
Definition node_ids (ops : list op) : list nat :=
  flat_map (fun o => match o with OMatch n | ODel n => [n] | OIns => [] end) ops.

(** The edges from [a] to [b]. *)
Definition edges_between (g : graph) (a b : nat) : list edge :=
  filter (fun e => Nat.eqb (edge_from e) a && Nat.eqb (edge_to e) b) (g_edges g).

(** [k] successive insertions of [s] with AddSequence. *)
Definition insert_times (k : nat) (s : list ascii) (p : scoring) (g : graph) : graph :=
  Nat.iter k (fun g' => snd (add_sequence g' s p)) g.

(** Position of [x] in a list (its length when [x] is absent). *)
Fixpoint idx (x : nat) (l : list nat) : nat :=
  match l with
  | [] => O
  | y :: r => if Nat.eqb y x then O else S (idx x r)
  end.

(** An edge from [a] to [b]. *)
Definition edge_rel (g : graph) (a b : nat) : Prop :=
  exists e, In e (g_edges g) /\ edge_from e = a /\ edge_to e = b.

(** The well-formed graphs: identifiers [0 .. n-1] in creation order, the
    order a permutation of them along which every edge goes forward, and
    symbols in the supported alphabet. *)
Definition wf (g : graph) : Prop :=
  map node_id (g_nodes g) = seq 0 (List.length (g_nodes g)) /\
  NoDup (g_order g) /\
  (forall x, In x (g_order g) <-> (x < List.length (g_nodes g))%nat) /\
  (forall e, In e (g_edges g) ->
     In (edge_from e) (g_order g) /\ In (edge_to e) (g_order g) /\
     (idx (edge_from e) (g_order g) < idx (edge_to e) (g_order g))%nat) /\
  Forall (fun nd => is_supported (node_sym nd) = true) (g_nodes g).

(** Every node of a recorded path is in the order. *)
Definition paths_in (g : graph) : Prop :=
  forall r n, In r (g_records g) -> In n (rec_path r) -> In n (g_order g).

(** The records of a chain of [m] nodes: at least one, each running along
    the whole chain. *)
Definition chain_recs (m : nat) (recs : list seq_record) : Prop :=
  recs <> [] /\ Forall (fun r => rec_path r = seq 0 m) recs.

(** The graph states reachable through the interface. *)
Inductive reachable : graph -> Prop :=
| reach_empty : reachable poasta_create_graph
| reach_add : forall g s w p, reachable g -> reachable (snd (add_sequence_weighted g s w p)).

(** What the mutator keeps true while it walks the remaining columns [rest]
    of an alignment of [s]. *)
Definition mut_inv (s : list ascii) (st : mstate) (rest : list op) : Prop :=
  let G := ms_graph st in
  wf G /\
  (forall n, In n (node_ids rest) -> In n (g_order G)) /\
  ForallOrdPairs (fun a b => (idx a (g_order G) < idx b (g_order G))%nat) (node_ids rest) /\
  match ms_prev st with
  | Some q => In q (g_order G) /\
              forall n, In n (node_ids rest) -> (idx q (g_order G) < idx n (g_order G))%nat
  | None => True
  end /\
  (ms_pos st + consumed rest = List.length s)%nat.

(** The order after placing a new node [k]: old elements keep their
    relative positions and [k] comes right after [q] (first when there is
    no [q]). *)
Definition place (prev : option nat) (k : nat) (l : list nat) : list nat :=
  match prev with None => k :: l | Some q => insert_after q k l end.

(** Tie-break scenario, sample inputs and proof states. *)

(** The chosen candidate is in the list, has the maximum score, and no
    candidate of the same score has a smaller key. *)
Definition chosen_ok (l : list (cell * option Z)) (c : cell) (z : Z) : Prop :=
  In (c, Some z) l /\
  forall c' z', In (c', Some z') l -> z' < z \/ (z' = z /\ key_lt c' c = false).

Definition last_or (prev : option op) (l : list op) : option op :=
  match last_op l with None => prev | Some o => Some o end.

Definition cell_mat (c : cell) : mat := let '(m, _, _) := c in m.

Definition cell_vtx (c : cell) : vtx := let '(_, v, _) := c in v.

Definition cell_pos (c : cell) : nat := let '(_, _, j) := c in j.

(** Everything the traceback of a scored cell satisfies. *)
Definition tb_ok (g : graph) (s : list ascii) (p : scoring) (c : cell) (z : Z) (ops : list op) : Prop :=
  path_score g s p ops = z /\ consumed ops = cell_pos c /\ ends_in (cell_mat c) ops
  /\ walk g VStart ops /\ last_vtx VStart ops = cell_vtx c.

Definition prev_of (i : nat) : option nat := match i with O => None | S q => Some q end.

Definition ins_state (s : list ascii) (w : nat) (recs : list seq_record) (i : nat) : mstate :=
  mkMState (chain_graph_gen s i (fun _ => w) (fun _ => w) recs) (prev_of i) (seq 0 i) i.

Definition bump_state (s : list ascii) (k w : nat) (recs : list seq_record) (i : nat) : mstate :=
  mkMState (chain_graph_gen s (List.length s)
              (fun j => if Nat.ltb j i then (k + w)%nat else k)
              (fun j => if Nat.ltb (S j) i then (k + w)%nat else k) recs)
           (prev_of i) (seq 0 i) i.

Definition acgt : list ascii := ["A"%char; "C"%char; "G"%char; "T"%char].

Definition scenario_scoring : scoring := mkScoring 4 8 2.




Definition act : list ascii := ["A"%char; "C"%char; "T"%char].


Definition tie_cands : list (cell * option Z) :=
  [((MX, VNode 0, 1%nat), Some 2); ((MY, VNode 3, 1%nat), Some 2);
   ((MM, VNode 5, 1%nat), Some 2); ((MM, VNode 2, 1%nat), Some 2);
   ((MM, VStart, 1%nat), None); ((MX, VNode 1, 1%nat), Some 1)].

Definition gap_heavy_scoring : scoring := mkScoring 4 2 8.

Definition acgt_graph : graph := chain_graph acgt 1 [mkRecord acgt 1 (seq 0 4)].

Definition gfa_sample : graph := snd (add_sequence acgt_graph act scenario_scoring).

Definition acga : list ascii := ["A"%char; "C"%char; "G"%char; "A"%char].

Definition two_seq_graph : graph :=
  snd (add_sequence (snd (add_sequence poasta_create_graph acgt scenario_scoring)) acga
         scenario_scoring).

(** ** Proofs *)

(** *** The tie-break chooser *)

Lemma key_lt_trans : forall a b c, key_lt a b = true -> key_lt b c = true -> key_lt a c = true.
Proof.
  intros [[m1 v1] j1] [[m2 v2] j2] [[m3 v3] j3]; unfold key_lt; simpl.
  repeat rewrite Bool.orb_true_iff, Bool.andb_true_iff.
  rewrite !Nat.ltb_lt, !Nat.eqb_eq. lia.
Qed.

Lemma key_lt_irrefl : forall a, key_lt a a = false.
Proof.
  intros [[m v] j]; unfold key_lt; simpl.
  rewrite Nat.ltb_irrefl, Nat.eqb_refl, Nat.ltb_irrefl. reflexivity.
Qed.

Lemma choose_fold_spec : forall l acc processed,
  (match acc with
   | None => forall c z, ~ In (c, Some z) processed
   | Some (c, z) => chosen_ok processed c z
   end) ->
  match fold_left choose_step l acc with
  | None => forall c z, ~ In (c, Some z) (processed ++ l)
  | Some (c, z) => chosen_ok (processed ++ l) c z
  end.
Proof.
  induction l as [|[x ox] l IH]; intros acc processed Hacc.
  - rewrite app_nil_r. exact Hacc.
  - simpl. replace (processed ++ (x, ox) :: l) with ((processed ++ [(x, ox)]) ++ l)
      by (rewrite <- app_assoc; reflexivity).
    apply IH. unfold choose_step; simpl.
    destruct ox as [z|].
    + destruct acc as [[c0 z0]|].
      * destruct Hacc as [Hin Hmax].
        destruct (better (x, z) (c0, z0)) eqn:Hb.
        -- split; [apply in_app_iff; right; left; reflexivity|].
           unfold better in Hb; simpl in Hb.
           apply Bool.orb_true_iff in Hb.
           intros c' z' Hi. apply in_app_iff in Hi as [Hi|[Heq|[]]].
           ++ destruct (Hmax c' z' Hi) as [Hlt|[Heq Hk]].
              ** destruct Hb as [Hb|Hb].
                 --- apply Z.ltb_lt in Hb. left; lia.
                 --- apply Bool.andb_true_iff in Hb as [Hb1 Hb2]. apply Z.eqb_eq in Hb1.
                     left; lia.
              ** destruct Hb as [Hb|Hb].
                 --- apply Z.ltb_lt in Hb. left; lia.
                 --- apply Bool.andb_true_iff in Hb as [Hb1 Hb2]. apply Z.eqb_eq in Hb1.
                     right; split; [lia|].
                     destruct (key_lt c' x) eqn:Hk'; [|reflexivity].
                     rewrite (key_lt_trans _ _ _ Hk' Hb2) in Hk. discriminate.
           ++ inversion Heq; subst. right; split; [reflexivity|apply key_lt_irrefl].
        -- split; [apply in_app_iff; left; exact Hin|].
           unfold better in Hb; simpl in Hb.
           apply Bool.orb_false_iff in Hb as [Hb1 Hb2]. apply Z.ltb_ge in Hb1.
           intros c' z' Hi. apply in_app_iff in Hi as [Hi|[Heq|[]]].
           ++ apply Hmax; exact Hi.
           ++ inversion Heq; subst.
              destruct (Z.eq_dec z' z0) as [->|Hne]; [|left; lia].
              right; split; [reflexivity|].
              rewrite Z.eqb_refl in Hb2. exact Hb2.
      * split; [apply in_app_iff; right; left; reflexivity|].
        intros c' z' Hi. apply in_app_iff in Hi as [Hi|[Heq|[]]].
        -- exfalso; exact (Hacc c' z' Hi).
        -- inversion Heq; subst. right; split; [reflexivity|apply key_lt_irrefl].
    + destruct acc as [[c0 z0]|].
      * destruct Hacc as [Hin Hmax]. split; [apply in_app_iff; left; exact Hin|].
        intros c' z' Hi. apply in_app_iff in Hi as [Hi|[Heq|[]]];
          [apply Hmax; exact Hi|discriminate].
      * intros c z Hi. apply in_app_iff in Hi as [Hi|[Heq|[]]];
          [exact (Hacc c z Hi)|discriminate].
Qed.

Lemma choose_spec : forall l,
  match choose l with
  | None => forall c z, ~ In (c, Some z) l
  | Some (c, z) => chosen_ok l c z
  end.
Proof.
  intros l. unfold choose.
  pose proof (choose_fold_spec l None []) as H. simpl in H. apply H.
  intros c z [].
Qed.

Lemma choose_some : forall l c z, choose l = Some (c, z) -> chosen_ok l c z.
Proof.
  intros l c z H. pose proof (choose_spec l) as Hs. rewrite H in Hs. exact Hs.
Qed.

Lemma choose_none : forall l c z, choose l = None -> ~ In (c, Some z) l.
Proof.
  intros l c z H. pose proof (choose_spec l) as Hs. rewrite H in Hs. apply Hs.
Qed.

(** *** Paths: append lemmas *)

Lemma consumed_app : forall l1 l2, consumed (l1 ++ l2) = (consumed l1 + consumed l2)%nat.
Proof.
  induction l1 as [|o l1 IH]; intros l2; [reflexivity|].
  destruct o; simpl; rewrite IH; reflexivity.
Qed.

Lemma last_vtx_app : forall l1 l2 v, last_vtx v (l1 ++ l2) = last_vtx (last_vtx v l1) l2.
Proof.
  induction l1 as [|o l1 IH]; intros l2 v; [reflexivity|].
  destruct o; simpl; apply IH.
Qed.

Lemma walk_app : forall g l1 l2 v,
  walk g v (l1 ++ l2) <-> walk g v l1 /\ walk g (last_vtx v l1) l2.
Proof.
  intros g. induction l1 as [|o l1 IH]; intros l2 v; simpl.
  - tauto.
  - destruct o; simpl; rewrite IH; tauto.
Qed.

Lemma last_op_snoc : forall l o, last_op (l ++ [o]) = Some o.
Proof. intros l o; unfold last_op; rewrite rev_app_distr; reflexivity. Qed.

Lemma last_or_cons : forall prev o l, last_or prev (o :: l) = last_or (Some o) l.
Proof.
  intros prev o l. unfold last_or, last_op. simpl.
  destruct (rev l) eqn:E; simpl; [reflexivity|].
  destruct l; simpl in E; [discriminate|]. reflexivity.
Qed.

Lemma path_score_from_app : forall g s p l prev i o,
  path_score_from g s p prev i (l ++ [o])
  = path_score_from g s p prev i l
    + path_score_from g s p (last_or prev l) (i + consumed l) [o].
Proof.
  intros g s p. induction l as [|o' l IH]; intros prev i o.
  - simpl. unfold last_or, last_op. simpl. rewrite Nat.add_0_r. lia.
  - rewrite <- app_comm_cons. rewrite last_or_cons.
    destruct o'; simpl path_score_from at 1; simpl path_score_from at 2;
      rewrite IH; simpl consumed; rewrite ?Nat.add_succ_r, ?Nat.add_succ_l; lia.
Qed.

Section Traceback.

Variable g : graph.
Variable s : list ascii.
Variable p : scoring.

Lemma cands_shape : forall c c' d, In (c', d) (cands g s p c) ->
  (exists v j, c = (MX, v, S j) /\ c' = (MM, v, j) /\ d = - gap_open p) \/
  (exists v j, c = (MX, v, S j) /\ c' = (MX, v, j) /\ d = - gap_extend p) \/
  (exists n j m u, c = (MM, VNode n, S j) /\ c' = (m, u, j) /\ In u (preds g n)
                   /\ d = subst_score g p (residue s j) n) \/
  (exists n j u, c = (MY, VNode n, j) /\ c' = (MM, u, j) /\ In u (preds g n)
                 /\ d = - gap_open p) \/
  (exists n j u, c = (MY, VNode n, j) /\ c' = (MY, u, j) /\ In u (preds g n)
                 /\ d = - gap_extend p).
Proof.
  intros [[m v] j] c' d H. unfold cands in H.
  destruct m, v as [|n], j as [|j]; simpl in H; try contradiction;
    try (apply in_flat_map in H as [u [Hu H]]; simpl in H);
    repeat (destruct H as [H|H]; [inversion H; subst|]); try contradiction;
    solve [ left; eauto 10 | right; left; eauto 10 | right; right; left; eauto 10
          | do 3 right; left; eauto 10 | do 4 right; eauto 10 ].
Qed.

Lemma in_scored_cands : forall f c c' z,
  In (c', Some z)
     (map (fun cd => (fst cd, option_map (fun z => z + snd cd) (score g s p f (fst cd))))
          (cands g s p c)) ->
  exists d z', In (c', d) (cands g s p c) /\ score g s p f c' = Some z' /\ z = z' + d.
Proof.
  intros f c c' z H. apply in_map_iff in H as [[c0 d] [E Hin]]. simpl in E.
  inversion E as [[E1 E2]]; subst.
  destruct (score g s p f c') as [z'|] eqn:Hs; simpl in E2; [|discriminate].
  inversion E2; subst. eauto.
Qed.

Lemma is_ins_last_or : forall l, last_or None l = last_op l.
Proof. intros l; unfold last_or; destruct (last_op l); reflexivity. Qed.

Lemma traceback_ok : forall f c z, score g s p f c = Some z ->
  exists ops, traceback g s p f c = Some ops /\ tb_ok g s p c z ops.
Proof.
  induction f as [|f IH]; intros c z Hs; [discriminate|].
  simpl in Hs |- *.
  destruct (is_origin c) eqn:Ho.
  - inversion Hs; subst. exists []. split; [reflexivity|].
    destruct c as [[m v] j]; destruct m, v, j; try discriminate.
    repeat split; reflexivity.
  - destruct (choose _) as [[c' z']|] eqn:Hc; simpl in Hs; [|discriminate].
    inversion Hs; subst z'.
    destruct (choose_some _ _ _ Hc) as [Hin _].
    destruct (in_scored_cands _ _ _ _ Hin) as [d [z1 [Hcd [Hs1 Ez]]]].
    destruct (IH _ _ Hs1) as [ops [Htb [Hps [Hcons [Hend [Hwalk Hlast]]]]]].
    rewrite Htb. eexists; split; [reflexivity|].
    unfold tb_ok. rewrite consumed_app, last_vtx_app, walk_app.
    unfold path_score in *. rewrite path_score_from_app, is_ins_last_or, Hps.
    simpl Nat.add. rewrite Hlast, Hcons.
    destruct (cands_shape _ _ _ Hcd) as
      [[v [j [-> [-> ->]]]]|[[v [j [-> [-> ->]]]]|[[n [j [m [u [-> [-> [Hu ->]]]]]]]|
       [[n [j [u [-> [-> [Hu ->]]]]]]|[n [j [u [-> [-> [Hu ->]]]]]]]]]];
      subst z; unfold ends_in in *; simpl cell_mat in *; rewrite ?last_op_snoc;
      destruct (last_op ops) as [[]|]; simpl in Hend |- *;
      repeat split; try lia; try assumption; destruct Hend; discriminate.
Qed.

End Traceback.

Section AlignFacts.

Variable g : graph.
Variable s : list ascii.
Variable p : scoring.

Lemma in_end_cells : forall c, In c (end_cells g s) ->
  cell_pos c = length s /\ In (cell_vtx c) (end_preds g).
Proof.
  intros c H. unfold end_cells in H. apply in_flat_map in H as [u [Hu H]].
  simpl in H. destruct H as [<-|[<-|[<-|[]]]]; simpl; auto.
Qed.

Lemma align_ok : forall z ops, align g s p = Some (z, ops) ->
  path_score g s p ops = z /\ consumed ops = length s /\ walk g VStart ops
  /\ In (last_vtx VStart ops) (end_preds g)
  /\ (forall c z', In c (end_cells g s) -> score g s p (align_fuel g s) c = Some z' -> z' <= z).
Proof.
  intros z ops H. unfold align in H.
  destruct (final_cell g s p) as [[c z0]|] eqn:Hf; [|discriminate].
  destruct (traceback g s p (align_fuel g s) c) as [ops0|] eqn:Ht; [|discriminate].
  inversion H; subst z0 ops0. clear H.
  unfold final_cell in Hf. destruct (choose_some _ _ _ Hf) as [Hin Hmax].
  apply in_map_iff in Hin as [c1 [E Hc1]]. inversion E; subst c1.
  destruct (traceback_ok g s p _ _ _ H1) as [ops1 [Ht1 [Hps [Hcons [_ [Hw Hl]]]]]].
  rewrite Ht in Ht1. inversion Ht1; subst ops1.
  destruct (in_end_cells _ Hc1) as [Hpos Hv].
  repeat split; try assumption.
  - congruence.
  - congruence.
  - intros c' z' Hc' Hs'.
    assert (Hi : In (c', Some z') (map (fun c => (c, score g s p (align_fuel g s) c)) (end_cells g s)))
      by (apply in_map_iff; exists c'; rewrite Hs'; auto).
    destruct (Hmax _ _ Hi) as [Hlt|[Heq _]]; lia.
Qed.

(** The aligner produces a result as soon as one end cell has a score. *)
Lemma align_some : forall c z, In c (end_cells g s) ->
  score g s p (align_fuel g s) c = Some z -> exists z' ops, align g s p = Some (z', ops).
Proof.
  intros c z Hc Hs. unfold align, final_cell.
  destruct (choose _) as [[c' z']|] eqn:Hf.
  - destruct (choose_some _ _ _ Hf) as [Hin _].
    apply in_map_iff in Hin as [c1 [E _]]. inversion E; subst c1.
    destruct (traceback_ok g s p _ _ _ H1) as [ops [Ht _]]. rewrite Ht. eauto.
  - exfalso. apply (choose_none _ c z Hf). apply in_map_iff. exists c. rewrite Hs. auto.
Qed.

(** A candidate's score bounds the score of the cell from below. *)
Lemma score_ge_cand : forall f c c' d z', is_origin c = false ->
  In (c', d) (cands g s p c) -> score g s p f c' = Some z' ->
  exists z, score g s p (S f) c = Some z /\ z' + d <= z.
Proof.
  intros f c c' d z' Ho Hin Hs. simpl. rewrite Ho.
  set (L := map _ (cands g s p c)).
  assert (HL : In (c', Some (z' + d)) L).
  { unfold L. apply in_map_iff. exists (c', d). simpl. rewrite Hs. auto. }
  destruct (choose L) as [[c0 z0]|] eqn:Hc.
  - destruct (choose_some _ _ _ Hc) as [_ Hmax]. simpl. exists z0. split; [reflexivity|].
    destruct (Hmax _ _ HL) as [Hlt|[Heq _]]; lia.
  - exfalso; exact (choose_none _ _ _ Hc HL).
Qed.

End AlignFacts.

(** *** Generic list facts *)

Lemma map_nth_seq_app : forall (d : ascii) l pre,
  map (fun j => nth j (pre ++ l) d) (seq (List.length pre) (List.length l)) = l.
Proof.
  intros d. induction l as [|x l IH]; intros pre; [reflexivity|].
  simpl. rewrite nth_middle. f_equal.
  replace (pre ++ x :: l) with ((pre ++ [x]) ++ l) by (rewrite <- app_assoc; reflexivity).
  replace (S (List.length pre)) with (List.length (pre ++ [x])) by (rewrite length_app; simpl; lia).
  apply IH.
Qed.

Lemma map_nth_seq_self : forall (s : list ascii) d,
  map (fun j => nth j s d) (seq 0 (List.length s)) = s.
Proof. intros s d. exact (map_nth_seq_app d s []). Qed.

Lemma insert_after_snoc : forall l q k, ~ In q l -> insert_after q k (l ++ [q]) = l ++ [q; k].
Proof.
  induction l as [|x l IH]; intros q k Hq; simpl.
  - rewrite Nat.eqb_refl. reflexivity.
  - destruct (Nat.eqb_spec x q) as [->|Hne]; [exfalso; apply Hq; left; reflexivity|].
    rewrite IH; [reflexivity|]. intros H; apply Hq; right; exact H.
Qed.

Lemma find_chain_node : forall (s : list ascii) (nw : nat -> nat) a k n,
  (a <= n < a + k)%nat ->
  find (fun x => Nat.eqb (node_id x) n)
       (map (fun j => mkNode j (nth j s " "%char) (nw j)) (seq a k))
  = Some (mkNode n (nth n s " "%char) (nw n)).
Proof.
  intros s nw a k. revert a. induction k as [|k IH]; intros a n Hn; [lia|].
  simpl. destruct (Nat.eqb_spec a n) as [->|Hne]; [reflexivity|].
  apply IH. lia.
Qed.

Lemma chain_symbol : forall s i nw ew recs n, (n < i)%nat ->
  node_symbol (chain_graph_gen s i nw ew recs) n = nth n s " "%char.
Proof.
  intros s i nw ew recs n Hn. unfold node_symbol, chain_graph_gen; simpl.
  rewrite find_chain_node by lia. reflexivity.
Qed.

(** *** A sequence inserted into the empty graph *)

Lemma score_ins_start : forall g s p j f, (1 <= j)%nat -> (j + 1 <= f)%nat ->
  exists z, score g s p f (MX, VStart, j) = Some z.
Proof.
  intros g s p j. induction j as [|j IH]; intros f Hj Hf; [lia|].
  destruct f as [|f]; [lia|].
  destruct j as [|j].
  - destruct f as [|f]; [lia|].
    destruct (score_ge_cand g s p (S f) (MX, VStart, 1%nat) (MM, VStart, 0%nat) (- gap_open p) 0
                eq_refl (or_introl eq_refl) eq_refl) as [z [Hz _]].
    eauto.
  - destruct (IH f ltac:(lia) ltac:(lia)) as [z1 Hz1].
    destruct (score_ge_cand g s p f (MX, VStart, S (S j)) (MX, VStart, S j) (- gap_extend p) z1
                eq_refl (or_intror (or_introl eq_refl)) Hz1) as [z [Hz _]].
    eauto.
Qed.

Lemma last_vtx_is_start : forall ops v, last_vtx v ops = VStart -> v = VStart /\ node_ids ops = [].
Proof.
  induction ops as [|o ops IH]; intros v H; simpl in H; [auto|].
  destruct o as [n| |n]; simpl.
  - destruct (IH _ H) as [E _]; discriminate.
  - apply IH; exact H.
  - destruct (IH _ H) as [E _]; discriminate.
Qed.

Lemma no_nodes_repeat_ins : forall ops, node_ids ops = [] -> ops = repeat OIns (consumed ops).
Proof.
  induction ops as [|o ops IH]; intros H; [reflexivity|].
  destruct o; simpl in H |- *; try discriminate. f_equal. apply IH; exact H.
Qed.

Lemma existsb_chain_edge_new : forall (ew : nat -> nat) q,
  existsb (fun e => Nat.eqb (edge_from e) q && Nat.eqb (edge_to e) (S q))
          (map (fun j => mkEdge j (S j) (ew j)) (seq 0 q)) = false.
Proof.
  intros ew q. apply Bool.not_true_iff_false. intros H.
  apply existsb_exists in H as [e [He Hq]].
  apply in_map_iff in He as [j [<- Hj]]. apply in_seq in Hj. simpl in Hq.
  apply Bool.andb_true_iff in Hq as [H1 _]. apply Nat.eqb_eq in H1. lia.
Qed.

Lemma ins_step : forall s w recs i, (i < List.length s)%nat ->
  mutate_step s w (ins_state s w recs i) OIns = ins_state s w recs (S i).
Proof.
  intros s w recs i Hi. unfold mutate_step, ins_state, add_node, use_node, chain_graph_gen.
  cbn [ms_graph ms_pos ms_prev ms_path g_nodes g_edges g_order g_records].
  rewrite length_map, length_seq.
  destruct i as [|q].
  - reflexivity.
  - cbn [prev_of link].
    rewrite (seq_S q 0), Nat.add_0_l, insert_after_snoc by (rewrite in_seq; lia).
    unfold add_edge. cbn [g_nodes g_edges g_order g_records].
    replace (S q - 1)%nat with q by lia. replace (S (S q) - 1)%nat with (S q) by lia.
    rewrite existsb_chain_edge_new.
    rewrite (seq_S (S q) 0), (seq_S q 0), !Nat.add_0_l, !map_app, <- !app_assoc.
    reflexivity.
Qed.

Lemma ins_fold : forall s w recs k i, (i + k <= List.length s)%nat ->
  fold_left (mutate_step s w) (repeat OIns k) (ins_state s w recs i) = ins_state s w recs (i + k).
Proof.
  intros s w recs k. induction k as [|k IH]; intros i Hk; cbn [repeat fold_left].
  - rewrite Nat.add_0_r. reflexivity.
  - rewrite ins_step by lia. rewrite IH by lia. f_equal. lia.
Qed.

Lemma valid_sequence_nonempty : forall s, valid_sequence s = true -> (1 <= List.length s)%nat.
Proof. intros [|c s] H; [discriminate|simpl; lia]. Qed.

Lemma valid_sequence_no_gap : forall s, valid_sequence s = true -> ~ In gap_char s.
Proof.
  intros [|c s] H; [discriminate|]. unfold valid_sequence in H.
  intros Hin. apply forallb_forall with (x := gap_char) in H; [|exact Hin].
  discriminate.
Qed.

Lemma empty_end_preds : end_preds poasta_create_graph = [VStart].
Proof. reflexivity. Qed.

(** Inserting a valid sequence into the empty graph builds the chain of
    its residues. *)
Lemma first_insert : forall s w p, valid_sequence s = true -> valid_scoring p = true ->
  add_sequence_weighted poasta_create_graph s w p
  = (Ok, chain_graph s w [mkRecord s w (seq 0 (List.length s))]).
Proof.
  intros s w p Hs Hp. unfold add_sequence_weighted. rewrite Hs, Hp. simpl negb. cbv iota.
  pose proof (valid_sequence_nonempty s Hs) as Hlen.
  destruct (score_ins_start poasta_create_graph s p (List.length s)
              (align_fuel poasta_create_graph s) Hlen ltac:(unfold align_fuel; simpl; lia))
    as [z Hz].
  assert (Hc : In (MX, VStart, List.length s) (end_cells poasta_create_graph s))
    by (unfold end_cells; rewrite empty_end_preds; simpl; auto).
  destruct (align_some _ _ p _ _ Hc Hz) as [z' [ops Ha]]. rewrite Ha.
  destruct (align_ok _ _ _ _ _ Ha) as [_ [Hcons [_ [Hlast _]]]].
  rewrite empty_end_preds in Hlast. destruct Hlast as [Hlast|[]].
  destruct (last_vtx_is_start _ _ (eq_sym Hlast)) as [_ Hn].
  rewrite (no_nodes_repeat_ins _ Hn), Hcons.
  unfold mutate.
  change (mkMState poasta_create_graph None [] 0) with (ins_state s w [] 0).
  rewrite ins_fold by lia. reflexivity.
Qed.

Lemma msa_chain_single : forall s w,
  get_msa (chain_graph s w [mkRecord s w (seq 0 (List.length s))]) = [s].
Proof.
  intros s w. unfold get_msa, msa_row. simpl. f_equal.
  rewrite <- (map_nth_seq_self s " "%char) at 2.
  apply map_ext_in. intros n Hn.
  assert (Hb : existsb (Nat.eqb n) (seq 0 (List.length s)) = true)
    by (apply existsb_exists; exists n; rewrite Nat.eqb_refl; auto).
  rewrite Hb. apply in_seq in Hn. unfold chain_graph. apply chain_symbol. lia.
Qed.

(** *** A sequence inserted into the chain that already spells it *)

Lemma chain_pred_ids_aux : forall (ew : nat -> nat) k a n,
  map edge_from (filter (fun e => Nat.eqb (edge_to e) n)
                        (map (fun j => mkEdge j (S j) (ew j)) (seq a k)))
  = if Nat.ltb a n && Nat.leb n (a + k) then [pred n] else [].
Proof.
  intros ew k. induction k as [|k IH]; intros a n.
  - simpl. destruct (Nat.ltb_spec a n), (Nat.leb_spec n (a + 0)); simpl; auto; lia.
  - cbn [seq map filter edge_to].
    destruct (Nat.eqb_spec (S a) n) as [<-|Hne]; cbn [map edge_from]; rewrite IH.
    + destruct (Nat.ltb_spec (S a) (S a)); [lia|]. cbn [andb].
      destruct (Nat.ltb_spec a (S a)), (Nat.leb_spec (S a) (a + S k)); simpl; auto; lia.
    + destruct (Nat.ltb_spec (S a) n), (Nat.leb_spec n (S a + k)),
               (Nat.ltb_spec a n), (Nat.leb_spec n (a + S k)); simpl; auto; lia.
Qed.

Lemma chain_recs_one : forall s w m, chain_recs m [mkRecord s w (seq 0 m)].
Proof. intros s w m. split; [discriminate|]. repeat constructor. Qed.

Lemma chain_recs_snoc : forall s w m recs, chain_recs m recs ->
  chain_recs m (recs ++ [mkRecord s w (seq 0 m)]).
Proof.
  intros s w m recs [Hne Hall]. split.
  - destruct recs; [congruence|discriminate].
  - apply Forall_app. split; [exact Hall|]. repeat constructor.
Qed.

(** Every path of a chain starts at node 0 and ends at node [m - 1]. *)
Lemma chain_start_ids : forall s m nw ew recs n, (1 <= m)%nat -> chain_recs m recs ->
  existsb (Nat.eqb n) (start_ids (chain_graph_gen s m nw ew recs)) = Nat.eqb n 0.
Proof.
  intros s m nw ew recs n Hm [Hne Hall]. unfold start_ids, chain_graph_gen. cbn [g_records].
  destruct m as [|m']; [lia|]. revert Hne.
  induction Hall as [|r rs Hr Hrs IH]; intros Hne; [congruence|].
  cbn [flat_map]. rewrite Hr. cbn [seq]. rewrite existsb_app. cbn [existsb].
  rewrite orb_false_r. destruct rs as [|r' rs'].
  - cbn [flat_map existsb]. apply orb_false_r.
  - rewrite IH by discriminate. apply orb_diag.
Qed.

Lemma chain_end_ids : forall s m nw ew recs, (1 <= m)%nat ->
  Forall (fun r => rec_path r = seq 0 m) recs ->
  end_ids (chain_graph_gen s m nw ew recs) = map (fun _ => (m - 1)%nat) recs.
Proof.
  intros s m nw ew recs Hm Hall. unfold end_ids, chain_graph_gen. cbn [g_records].
  destruct m as [|m']; [lia|]. replace (S m' - 1)%nat with m' by lia.
  induction Hall as [|r rs Hr Hrs IH]; [reflexivity|].
  cbn [flat_map map]. rewrite Hr, IH, seq_S, rev_app_distr. reflexivity.
Qed.

Lemma chain_preds : forall s m nw ew recs n, (n < m)%nat -> chain_recs m recs ->
  preds (chain_graph_gen s m nw ew recs) n = match n with O => [VStart] | S q => [VNode q] end.
Proof.
  intros s m nw ew recs n Hn Hr. unfold preds.
  rewrite chain_start_ids by (first [exact Hr|lia]).
  unfold pred_ids, chain_graph_gen. cbn [g_edges].
  rewrite chain_pred_ids_aux. destruct n as [|q].
  - reflexivity.
  - destruct (Nat.ltb_spec 0 (S q)), (Nat.leb_spec (S q) (0 + (m - 1))); simpl; auto; lia.
Qed.

Lemma filter_all_false : forall (A : Type) (f : A -> bool) l,
  (forall x, In x l -> f x = false) -> filter f l = [].
Proof.
  intros A f l. induction l as [|x l IH]; intros H; [reflexivity|].
  simpl. rewrite H by (left; reflexivity). apply IH. intros y Hy. apply H. right; exact Hy.
Qed.

Lemma chain_end_preds : forall s m nw ew recs, (1 <= m)%nat -> chain_recs m recs ->
  forall v, In v (end_preds (chain_graph_gen s m nw ew recs)) <-> v = VNode (m - 1).
Proof.
  intros s m nw ew recs Hm [Hne Hall] v. unfold end_preds.
  rewrite (chain_end_ids s m nw ew recs Hm Hall).
  destruct recs as [|r rs]; [congruence|]. cbn [map]. rewrite map_map. split.
  - intros [<-|H]; [reflexivity|]. apply in_map_iff in H as [x [<- _]]. reflexivity.
  - intros ->. left. reflexivity.
Qed.

Lemma chain_lower_bound : forall s p m nw ew recs i f, chain_recs m recs ->
  (m <= List.length s)%nat -> (i < m)%nat -> (i + 2 <= f)%nat ->
  exists z, score (chain_graph_gen s m nw ew recs) s p f (MM, VNode i, S i) = Some z
            /\ Z.of_nat (S i) <= z.
Proof.
  intros s p m nw ew recs i f Hr. revert f. induction i as [|i IH]; intros f Hm Hi Hf.
  - destruct f as [|f]; [lia|]. destruct f as [|f]; [lia|].
    assert (Hin : In ((MM, VStart, 0%nat), match_score)
                     (cands (chain_graph_gen s m nw ew recs) s p (MM, VNode 0, 1%nat))).
    { unfold cands. rewrite chain_preds by (first [exact Hr|lia]). unfold subst_score, residue.
      rewrite chain_symbol by lia. rewrite Ascii.eqb_refl. simpl. auto. }
    destruct (score_ge_cand _ _ _ (S f) (MM, VNode 0, 1%nat) _ _ 0 eq_refl Hin eq_refl) as [z [Hz Hle]].
    exists z. split; [exact Hz|]. unfold match_score in Hle. lia.
  - destruct f as [|f]; [lia|].
    destruct (IH f ltac:(lia) ltac:(lia) ltac:(lia)) as [z1 [Hz1 Hle1]].
    assert (Hin : In ((MM, VNode i, S i), match_score)
                     (cands (chain_graph_gen s m nw ew recs) s p (MM, VNode (S i), S (S i)))).
    { unfold cands. rewrite chain_preds by (first [exact Hr|lia]). unfold subst_score, residue.
      rewrite chain_symbol by lia. rewrite Ascii.eqb_refl. simpl. auto. }
    destruct (score_ge_cand _ _ _ f (MM, VNode (S i), S (S i)) _ _ _ eq_refl Hin Hz1) as [z [Hz Hle]].
    exists z. split; [exact Hz|]. unfold match_score in Hle. lia.
Qed.

Lemma path_score_le_matches : forall g s p prev i ops,
  0 <= mismatch_score p -> 0 <= gap_open p -> 0 <= gap_extend p ->
  path_score_from g s p prev i ops <= Z.of_nat (count_match ops).
Proof.
  intros g s p prev i ops Hm Ho He. revert prev i.
  induction ops as [|o ops IH]; intros prev i; [simpl; lia|].
  unfold count_match in *. destruct o as [n| |n]; simpl path_score_from; simpl filter.
  - cbn [List.length]. specialize (IH (Some (OMatch n)) (S i)).
    unfold subst_score, match_score. destruct (Ascii.eqb _ _); lia.
  - specialize (IH (Some OIns) (S i)). destruct prev as [[]|]; lia.
  - specialize (IH (Some (ODel n)) i). destruct prev as [[]|]; lia.
Qed.

Lemma node_ids_app : forall l1 l2, node_ids (l1 ++ l2) = node_ids l1 ++ node_ids l2.
Proof. intros l1 l2. unfold node_ids. apply flat_map_app. Qed.

Lemma chain_walk : forall s m nw ew recs ops a, chain_recs m recs ->
  walk (chain_graph_gen s m nw ew recs) VStart ops ->
  last_vtx VStart ops = VNode a -> (a < m)%nat -> node_ids ops = seq 0 (S a).
Proof.
  intros s m nw ew recs ops a Hr. revert a.
  induction ops as [|o ops IH] using rev_ind; intros a Hw Hl Ha.
  - discriminate.
  - apply walk_app in Hw as [Hw Ho]. rewrite last_vtx_app in Hl.
    rewrite node_ids_app.
    destruct o as [n| |n]; simpl in Hl, Ho.
    + inversion Hl; subst n. destruct Ho as [Hp _].
      rewrite chain_preds in Hp by (first [exact Hr|exact Ha]). unfold node_ids at 2. cbn [flat_map app].
      destruct a as [|q]; destruct Hp as [Hp|[]].
      * destruct (last_vtx_is_start _ _ (eq_sym Hp)) as [_ ->]. reflexivity.
      * rewrite (IH q Hw (eq_sym Hp) ltac:(lia)). rewrite (seq_S (S q) 0), Nat.add_0_l.
        reflexivity.
    + rewrite (IH a Hw Hl Ha). simpl. rewrite app_nil_r. reflexivity.
    + inversion Hl; subst n. destruct Ho as [Hp _].
      rewrite chain_preds in Hp by (first [exact Hr|exact Ha]). unfold node_ids at 2. cbn [flat_map app].
      destruct a as [|q]; destruct Hp as [Hp|[]].
      * destruct (last_vtx_is_start _ _ (eq_sym Hp)) as [_ ->]. reflexivity.
      * rewrite (IH q Hw (eq_sym Hp) ltac:(lia)). rewrite (seq_S (S q) 0), Nat.add_0_l.
        reflexivity.
Qed.

Lemma count_node_ids : forall ops, List.length (node_ids ops) = (count_match ops + count_del ops)%nat.
Proof.
  unfold count_match, count_del. induction ops as [|o ops IH]; [reflexivity|].
  destruct o; simpl; rewrite ?IH; lia.
Qed.

Lemma count_consumed : forall ops, consumed ops = (count_match ops + count_ins ops)%nat.
Proof.
  unfold count_match, count_ins. induction ops as [|o ops IH]; [reflexivity|].
  destruct o; simpl; rewrite ?IH; lia.
Qed.

Lemma only_matches : forall ops, count_ins ops = O -> count_del ops = O ->
  ops = map OMatch (node_ids ops).
Proof.
  unfold count_ins, count_del. induction ops as [|o ops IH]; intros Hi Hd; [reflexivity|].
  destruct o; simpl in Hi, Hd |- *; try discriminate. f_equal. apply IH; assumption.
Qed.

Lemma chain_has_out_edge_pair : forall (ew : nat -> nat) k q, (q < k)%nat ->
  existsb (fun e => Nat.eqb (edge_from e) q && Nat.eqb (edge_to e) (S q))
          (map (fun j => mkEdge j (S j) (ew j)) (seq 0 k)) = true.
Proof.
  intros ew k q Hq. apply existsb_exists. exists (mkEdge q (S q) (ew q)).
  split; [|simpl; rewrite !Nat.eqb_refl; reflexivity].
  apply in_map_iff. exists q. split; [reflexivity|]. apply in_seq. lia.
Qed.

(** Aligning [s] against the chain that spells it matches every residue to
    its node. *)
Lemma chain_align : forall s p nw ew recs,
  valid_sequence s = true -> chain_recs (List.length s) recs ->
  0 <= mismatch_score p -> 0 <= gap_open p -> 0 <= gap_extend p ->
  exists z, align (chain_graph_gen s (List.length s) nw ew recs) s p
            = Some (z, map OMatch (seq 0 (List.length s))).
Proof.
  intros s p nw ew recs Hs Hr Hm Ho He.
  set (m := List.length s) in *. set (g := chain_graph_gen s m nw ew recs).
  pose proof (valid_sequence_nonempty s Hs) as Hlen. fold m in Hlen.
  pose proof (chain_end_preds s m nw ew recs Hlen Hr) as Hep. fold g in Hep.
  destruct (chain_lower_bound s p m nw ew recs (m - 1) (align_fuel g s) Hr
              ltac:(lia) ltac:(lia) ltac:(unfold align_fuel; fold m; lia)) as [z0 [Hz0 Hle0]].
  replace (S (m - 1)) with m in Hz0, Hle0 by lia.
  assert (Hc : In (MM, VNode (m - 1), m) (end_cells g s)).
  { unfold end_cells. apply in_flat_map. exists (VNode (m - 1)).
    split; [apply Hep; reflexivity|]. fold m. simpl. auto. }
  destruct (align_some g s p _ _ Hc Hz0) as [z [ops Ha]].
  destruct (align_ok _ _ _ _ _ Ha) as [Hps [Hcons [Hw [Hl Hmax]]]].
  pose proof (Hmax _ _ Hc Hz0) as Hz.
  apply Hep in Hl.
  pose proof (chain_walk s m nw ew recs ops (m - 1) Hr Hw Hl ltac:(lia)) as Hn.
  replace (S (m - 1)) with m in Hn by lia.
  pose proof (path_score_le_matches g s p None 0 ops Hm Ho He) as Hub.
  unfold path_score in Hps. rewrite Hps in Hub.
  pose proof (count_node_ids ops) as Hc1. rewrite Hn, length_seq in Hc1.
  pose proof (count_consumed ops) as Hc2. rewrite Hcons in Hc2. fold m in Hc2.
  assert (Hcd : count_del ops = O) by lia.
  assert (Hci : count_ins ops = O) by lia.
  exists z. rewrite Ha. rewrite (only_matches ops Hci Hcd), Hn. reflexivity.
Qed.

Lemma bump_step : forall s k w recs i, (i < List.length s)%nat ->
  mutate_step s w (bump_state s k w recs i) (OMatch i) = bump_state s k w recs (S i).
Proof.
  intros s k w recs i Hi. unfold mutate_step, bump_state.
  cbn [ms_graph ms_pos ms_prev ms_path].
  rewrite chain_symbol by exact Hi. rewrite Ascii.eqb_refl.
  unfold use_node, bump_node, chain_graph_gen. cbn [ms_prev ms_path ms_pos g_nodes g_edges g_order g_records].
  rewrite map_map. cbn [node_id node_sym node_weight].
  f_equal; [|rewrite (seq_S i 0); reflexivity].
  destruct i as [|q]; cbn [prev_of link].
  - f_equal; apply map_ext_in; intros j Hj; try reflexivity.
    destruct (Nat.eqb_spec j 0) as [->|Hne]; [reflexivity|].
    destruct j; [lia|reflexivity].
  - unfold add_edge. cbn [g_nodes g_edges g_order g_records].
    rewrite chain_has_out_edge_pair by lia.
    f_equal.
    + apply map_ext_in. intros j Hj. destruct (Nat.eqb_spec j (S q)) as [->|Hne].
      * rewrite Nat.ltb_irrefl. destruct (Nat.ltb_spec (S q) (S (S q))); [reflexivity|lia].
      * destruct (Nat.ltb_spec j (S q)), (Nat.ltb_spec j (S (S q))); try reflexivity; lia.
    + rewrite map_map. apply map_ext_in. intros j Hj. cbn [edge_from edge_to edge_weight].
      destruct (Nat.eqb_spec j q) as [->|Hne].
      * rewrite !Nat.eqb_refl. simpl andb. cbv iota.
        rewrite Nat.ltb_irrefl. destruct (Nat.ltb_spec (S q) (S (S q))); [reflexivity|lia].
      * simpl andb. cbv iota.
        destruct (Nat.ltb_spec (S j) (S q)), (Nat.ltb_spec (S j) (S (S q))); try reflexivity; lia.
Qed.

Lemma bump_fold : forall s k w recs n i, (i + n <= List.length s)%nat ->
  fold_left (mutate_step s w) (map OMatch (seq i n)) (bump_state s k w recs i)
  = bump_state s k w recs (i + n).
Proof.
  intros s k w recs n. induction n as [|n IH]; intros i Hn; cbn [seq map fold_left].
  - rewrite Nat.add_0_r. reflexivity.
  - rewrite bump_step by lia. rewrite IH by lia. f_equal. lia.
Qed.

(** Inserting [s] into the chain that spells it only raises the weights. *)
Lemma chain_reinsert : forall s k w p recs,
  valid_sequence s = true -> valid_scoring p = true -> chain_recs (List.length s) recs ->
  0 <= mismatch_score p -> 0 <= gap_extend p ->
  add_sequence_weighted (chain_graph s k recs) s w p
  = (Ok, chain_graph s (k + w) (recs ++ [mkRecord s w (seq 0 (List.length s))])).
Proof.
  intros s k w p recs Hs Hp Hr Hm He.
  assert (Ho : 0 <= gap_open p) by (unfold valid_scoring in Hp; apply Z.leb_le in Hp; lia).
  unfold add_sequence_weighted. rewrite Hs, Hp. simpl negb. cbv iota.
  destruct (chain_align s p (fun _ => k) (fun _ => k) recs Hs Hr Hm Ho He) as [z Ha].
  unfold chain_graph. rewrite Ha. unfold mutate.
  change (mkMState (chain_graph_gen s (List.length s) (fun _ => k) (fun _ => k) recs) None [] 0)
    with (bump_state s k w recs 0).
  rewrite bump_fold by lia. unfold bump_state, chain_graph_gen. cbn [ms_graph ms_path g_nodes g_edges g_order g_records].
  f_equal. f_equal.
  - apply map_ext_in. intros j Hj. apply in_seq in Hj.
    destruct (Nat.ltb_spec j (0 + List.length s)); [reflexivity|lia].
  - apply map_ext_in. intros j Hj. apply in_seq in Hj.
    destruct (Nat.ltb_spec (S j) (0 + List.length s)); [reflexivity|lia].
Qed.

Lemma insert_times_chain : forall k s p, valid_sequence s = true -> valid_scoring p = true ->
  0 <= mismatch_score p -> 0 <= gap_extend p -> (1 <= k)%nat ->
  exists recs, chain_recs (List.length s) recs /\
              insert_times k s p poasta_create_graph = chain_graph s k recs.
Proof.
  intros k s p Hs Hp Hm He. induction k as [|k IH]; intros Hk; [lia|].
  destruct k as [|k].
  - unfold insert_times. cbn [Nat.iter nat_rect]. unfold add_sequence. rewrite first_insert by assumption.
    eexists; split; [apply chain_recs_one|reflexivity].
  - destruct (IH ltac:(lia)) as [recs [Hc Hr]].
    unfold insert_times in *.
    change (Nat.iter (S (S k)) ?f ?x) with (f (Nat.iter (S k) f x)). rewrite Hr. cbv beta.
    unfold add_sequence.
    rewrite chain_reinsert by assumption. cbn [snd]. replace (S k + 1)%nat with (S (S k)) by lia.
    eexists; split; [apply chain_recs_snoc; exact Hc|reflexivity].
Qed.


Lemma edges_between_fresh : forall g a b w,
  existsb (fun e => Nat.eqb (edge_from e) a && Nat.eqb (edge_to e) b) (g_edges g) = false ->
  edges_between (add_edge g a b w) a b = [mkEdge a b w].
Proof.
  intros g a b w H. unfold add_edge. rewrite H. unfold edges_between. cbn [g_edges].
  rewrite filter_app. simpl. rewrite !Nat.eqb_refl. simpl.
  rewrite filter_all_false; [reflexivity|].
  intros e He. destruct (_ && _) eqn:E; [|reflexivity].
  exfalso. apply Bool.not_true_iff_false in H. apply H. apply existsb_exists. eauto.
Qed.

Lemma add_edge_existing : forall g a b w,
  existsb (fun e => Nat.eqb (edge_from e) a && Nat.eqb (edge_to e) b) (g_edges g) = true ->
  List.length (g_edges (add_edge g a b w)) = List.length (g_edges g) /\
  map edge_weight (edges_between (add_edge g a b w) a b)
  = map (fun x => (x + w)%nat) (map edge_weight (edges_between g a b)).
Proof.
  intros g a b w H. unfold add_edge. rewrite H. cbn [g_edges]. split.
  - apply length_map.
  - unfold edges_between. cbn [g_edges]. generalize (g_edges g) as l.
    induction l as [|e l IH]; [reflexivity|]. simpl.
    destruct (Nat.eqb (edge_from e) a && Nat.eqb (edge_to e) b) eqn:E; simpl.
    + rewrite !Nat.eqb_refl. simpl. f_equal. exact IH.
    + rewrite E. exact IH.
Qed.

(** The tie-break key, written out: no smaller matrix rank, and at equal
    matrix rank no smaller row rank. *)
Lemma key_lt_false : forall m v j m' v' j',
  key_lt (m', v', j') (m, v, j) = false ->
  (mat_rank m < mat_rank m' \/ (mat_rank m = mat_rank m' /\ vtx_rank v <= vtx_rank v'))%nat.
Proof.
  intros m v j m' v' j' H. unfold key_lt in H.
  apply Bool.orb_false_iff in H as [H1 H2]. apply Nat.ltb_ge in H1.
  destruct (Nat.eq_dec (mat_rank m) (mat_rank m')) as [E|E]; [|left; lia].
  right. split; [exact E|]. rewrite E, Nat.eqb_refl in H2. simpl in H2.
  apply Nat.ltb_ge in H2. exact H2.
Qed.

(** Chain edges are pairwise distinct. *)
Lemma chain_edges_nodup : forall s k recs,
  NoDup (map (fun e => (edge_from e, edge_to e)) (g_edges (chain_graph s k recs))).
Proof.
  intros s k recs. unfold chain_graph, chain_graph_gen. cbn [g_edges].
  rewrite map_map. cbn [edge_from edge_to].
  assert (G : forall n a, NoDup (map (fun x => (x, S x)) (seq a n))); [|apply G].
  intros n. induction n as [|n IH]; intros a; [constructor|].
  cbn [seq map]. constructor; [|apply IH].
  intros Hi. apply in_map_iff in Hi as [x [Hx Hi]]. inversion Hx; subst.
  apply in_seq in Hi. lia.
Qed.

(** *** The GFA text read back *)

Lemma split_on_nosep : forall sep l, ~ In sep l -> split_on sep l = [l].
Proof.
  intros sep l. induction l as [|c l IH]; intros H; [reflexivity|].
  simpl. destruct (Ascii.eqb_spec c sep) as [->|Hne]; [exfalso; apply H; left; reflexivity|].
  rewrite IH; [reflexivity|]. intros Hi; apply H; right; exact Hi.
Qed.

Lemma split_on_app : forall sep l r, ~ In sep l ->
  split_on sep (l ++ sep :: r) = l :: split_on sep r.
Proof.
  intros sep l r. induction l as [|c l IH]; intros H.
  - simpl. rewrite Ascii.eqb_refl. reflexivity.
  - simpl. destruct (Ascii.eqb_spec c sep) as [->|Hne]; [exfalso; apply H; left; reflexivity|].
    rewrite IH; [reflexivity|]. intros Hi; apply H; right; exact Hi.
Qed.

Lemma split_on_join : forall sep fs, fs <> [] -> Forall (fun f => ~ In sep f) fs ->
  split_on sep (join sep fs) = fs.
Proof.
  intros sep fs. induction fs as [|f fs IH]; intros Hne H; [congruence|].
  inversion H as [|? ? Hf Hfs]; subst.
  destruct fs as [|f' fs].
  - apply split_on_nosep. exact Hf.
  - change (join sep (f :: f' :: fs)) with (f ++ sep :: join sep (f' :: fs)).
    rewrite split_on_app by exact Hf. rewrite IH; [reflexivity|discriminate|exact Hfs].
Qed.

Lemma not_in_join : forall c sep fs, c <> sep -> Forall (fun f => ~ In c f) fs ->
  ~ In c (join sep fs).
Proof.
  intros c sep fs Hc. induction fs as [|f fs IH]; intros H; [intros []|].
  inversion H as [|? ? Hf Hfs]; subst.
  destruct fs as [|f' fs]; [exact Hf|].
  change (join sep (f :: f' :: fs)) with (f ++ sep :: join sep (f' :: fs)).
  intros Hi. apply in_app_iff in Hi as [Hi|[Hi|Hi]].
  - exact (Hf Hi).
  - exact (Hc (eq_sym Hi)).
  - exact (IH Hfs Hi).
Qed.

Lemma split_on_lines : forall sep ls, Forall (fun l => ~ In sep l) ls ->
  split_on sep (flat_map (fun l => l ++ [sep]) ls) = ls ++ [[]].
Proof.
  intros sep ls. induction ls as [|l ls IH]; intros H; [reflexivity|].
  inversion H as [|? ? Hl Hls]; subst. simpl. rewrite <- app_assoc. simpl.
  rewrite split_on_app by exact Hl. rewrite IH by exact Hls. reflexivity.
Qed.

Lemma digit_ascii : forall k, (k < 10)%nat ->
  nat_of_ascii (ascii_of_nat (48 + k)) = (48 + k)%nat.
Proof. intros k Hk. apply nat_ascii_embedding. lia. Qed.

Lemma digits_aux_spec : forall f n acc, (n < f)%nat ->
  exists X, digits_aux f n acc = X ++ acc /\ X <> [] /\ Forall (fun c => is_digit c = true) X /\
  fold_left dec_step (X ++ acc) 0%nat = fold_left dec_step acc n.
Proof.
  induction f as [|f IH]; intros n acc Hn; [lia|].
  assert (Hd : is_digit (ascii_of_nat (48 + n mod 10)) = true).
  { unfold is_digit. rewrite digit_ascii by (apply Nat.mod_upper_bound; lia).
    pose proof (Nat.mod_upper_bound n 10 ltac:(lia)).
    apply andb_true_iff; split; apply Nat.leb_le; lia. }
  cbn [digits_aux]. destruct (Nat.ltb_spec n 10) as [Hlt|Hge].
  - exists [ascii_of_nat (48 + n mod 10)]. split; [reflexivity|].
    split; [discriminate|]. split; [constructor; [exact Hd|constructor]|].
    cbn [app fold_left]. change (dec_step ?a ?c) with ((a * 10 + (nat_of_ascii c - 48))%nat).
    rewrite digit_ascii by (apply Nat.mod_upper_bound; lia).
    rewrite Nat.mod_small by exact Hlt. f_equal. lia.
  - destruct (IH (n / 10)%nat (ascii_of_nat (48 + n mod 10) :: acc)) as [X [HX [Hne [Hdig Hval]]]].
    { apply Nat.lt_le_trans with n; [apply Nat.div_lt; lia|lia]. }
    exists (X ++ [ascii_of_nat (48 + n mod 10)]). rewrite HX, <- app_assoc. split; [reflexivity|].
    split; [destruct X; [congruence|discriminate]|].
    split; [apply Forall_app; split; [exact Hdig|constructor; [exact Hd|constructor]]|].
    cbn [app]. rewrite Hval. cbn [fold_left].
    change (dec_step ?a ?c) with ((a * 10 + (nat_of_ascii c - 48))%nat).
    rewrite digit_ascii by (apply Nat.mod_upper_bound; lia).
    f_equal. pose proof (Nat.div_mod_eq n 10). lia.
Qed.

Lemma nat_to_dec_spec : forall n,
  nat_to_dec n <> [] /\ Forall (fun c => is_digit c = true) (nat_to_dec n) /\
  dec_to_nat (nat_to_dec n) = Some n.
Proof.
  intros n. unfold nat_to_dec.
  destruct (digits_aux_spec (S n) n [] ltac:(lia)) as [X [HX [Hne [Hdig Hval]]]].
  rewrite HX, app_nil_r. split; [exact Hne|]. split; [exact Hdig|].
  unfold dec_to_nat. destruct X as [|x X]; [congruence|].
  assert (Hf : forallb is_digit (x :: X) = true) by (apply forallb_forall, Forall_forall; exact Hdig).
  rewrite Hf. f_equal. rewrite app_nil_r in Hval. exact Hval.
Qed.

Lemma digits_not_in : forall n c, is_digit c = false -> ~ In c (nat_to_dec n).
Proof.
  intros n c Hc Hi. destruct (nat_to_dec_spec n) as [_ [Hd _]].
  rewrite Forall_forall in Hd. rewrite (Hd c Hi) in Hc. discriminate.
Qed.

Lemma supported_not_tab : forall c, is_supported c = true -> c <> tab /\ c <> newline.
Proof.
  intros c Hc. unfold is_supported in Hc. apply andb_true_iff in Hc as [H1 H2].
  apply Nat.leb_le in H1. split; intros ->; vm_compute in H1; lia.
Qed.

Lemma ascii_list_eqb_refl : forall l, ascii_list_eqb l l = true.
Proof. induction l as [|c l IH]; [reflexivity|]. simpl. rewrite Ascii.eqb_refl. exact IH. Qed.

Ltac const_not_in :=
  let Hi := fresh "Hi" in
  intros Hi; vm_compute in Hi; repeat (destruct Hi as [Hi|Hi]; [discriminate Hi|]); exact Hi.

Lemma dec_plus_not_in : forall c n, is_digit c = false -> c <> "+"%char ->
  ~ In c (nat_to_dec n ++ str_plus).
Proof.
  intros c n Hd Hp Hi. apply in_app_iff in Hi as [Hi|[Hi|[]]].
  - exact (digits_not_in n c Hd Hi).
  - exact (Hp (eq_sym Hi)).
Qed.

Lemma prefixed_dec_not_in : forall c pre n, is_digit c = false -> ~ In c pre ->
  ~ In c (pre ++ nat_to_dec n).
Proof.
  intros c pre n Hd Hpre Hi. apply in_app_iff in Hi as [Hi|Hi].
  - exact (Hpre Hi).
  - exact (digits_not_in n c Hd Hi).
Qed.

Lemma segment_fields : forall c nd, c = tab \/ c = newline -> c <> node_sym nd ->
  Forall (fun f => ~ In c f) [str_S; nat_to_dec (node_id nd); [node_sym nd]].
Proof.
  intros c nd Hc Hs. repeat constructor.
  - destruct Hc as [->| ->]; const_not_in.
  - apply digits_not_in. destruct Hc as [->| ->]; reflexivity.
  - intros [H|[]]. exact (Hs (eq_sym H)).
Qed.

Lemma link_fields : forall c e, c = tab \/ c = newline ->
  Forall (fun f => ~ In c f)
    [str_L; nat_to_dec (edge_from e); str_plus; nat_to_dec (edge_to e); str_plus;
     str_0M; str_RC ++ nat_to_dec (edge_weight e)].
Proof.
  intros c e Hc.
  assert (Hd : is_digit c = false) by (destruct Hc as [->| ->]; reflexivity).
  repeat constructor;
    first [ apply digits_not_in; exact Hd
          | apply prefixed_dec_not_in; [exact Hd|destruct Hc as [->| ->]; const_not_in]
          | destruct Hc as [->| ->]; const_not_in ].
Qed.

Lemma path_fields : forall c k r, c = tab \/ c = newline ->
  Forall (fun f => ~ In c f)
    [str_P; str_seq ++ nat_to_dec k;
     join ","%char (map (fun n => nat_to_dec n ++ str_plus) (rec_path r)); str_star].
Proof.
  intros c k r Hc.
  assert (Hd : is_digit c = false) by (destruct Hc as [->| ->]; reflexivity).
  repeat constructor.
  - destruct Hc as [->| ->]; const_not_in.
  - apply prefixed_dec_not_in; [exact Hd|destruct Hc as [->| ->]; const_not_in].
  - apply not_in_join; [destruct Hc as [->| ->]; discriminate|].
    apply Forall_map, Forall_forall. intros n _. apply dec_plus_not_in; [exact Hd|].
    destruct Hc as [->| ->]; discriminate.
  - destruct Hc as [->| ->]; const_not_in.
Qed.

Lemma parse_segment_line : forall nd, is_supported (node_sym nd) = true ->
  parse_line (segment_line nd) = Some (GSeg (node_id nd) (node_sym nd)).
Proof.
  intros nd Hs. destruct (supported_not_tab _ Hs) as [Ht _].
  unfold parse_line, segment_line.
  rewrite split_on_join; [|discriminate|apply segment_fields; [left; reflexivity|congruence]].
  destruct (nat_to_dec_spec (node_id nd)) as [_ [_ Hd]]. rewrite Hd. reflexivity.
Qed.

Lemma parse_link_line : forall e,
  parse_line (link_line e) = Some (GLink (edge_from e) (edge_to e) (edge_weight e)).
Proof.
  intros e. unfold parse_line, link_line.
  rewrite split_on_join; [|discriminate|apply link_fields; left; reflexivity].
  change (firstn 5 (str_RC ++ ?x)) with str_RC. change (skipn 5 (str_RC ++ ?x)) with x.
  destruct (nat_to_dec_spec (edge_from e)) as [_ [_ Ha]].
  destruct (nat_to_dec_spec (edge_to e)) as [_ [_ Hb]].
  destruct (nat_to_dec_spec (edge_weight e)) as [_ [_ Hw]].
  rewrite Ha, Hb, Hw. reflexivity.
Qed.

Lemma parse_path_line : forall k r, parse_line (path_line k r) = Some GOther.
Proof.
  intros k r. unfold parse_line, path_line.
  rewrite split_on_join; [|discriminate|apply path_fields; left; reflexivity].
  destruct (join ","%char (map (fun n => nat_to_dec n ++ str_plus) (rec_path r)))
    as [|x1 [|x2 xs]]; reflexivity.
Qed.

Lemma parse_step_line : forall l r ss ls, l <> [] -> parse_line l = Some r ->
  parse_step l (Some (ss, ls)) =
  match r with
  | GSeg n c => Some ((n, c) :: ss, ls)
  | GLink a b w => Some (ss, (a, b, w) :: ls)
  | GOther => Some (ss, ls)
  end.
Proof.
  intros l r ss ls Hl Hp. destruct l as [|x l]; [congruence|].
  cbn [parse_step]. rewrite Hp. destruct r; reflexivity.
Qed.

Lemma parse_path_lines : forall rs k ss ls,
  fold_right parse_step (Some (ss, ls)) (path_lines k rs) = Some (ss, ls).
Proof.
  induction rs as [|r rs IH]; intros k ss ls; [reflexivity|].
  cbn [path_lines fold_right]. rewrite IH.
  apply (parse_step_line _ GOther); [|apply parse_path_line].
  unfold path_line. cbn [join app str_P]. discriminate.
Qed.

Lemma parse_link_lines : forall es ss ls,
  fold_right parse_step (Some (ss, ls)) (map link_line es)
  = Some (ss, map (fun e => (edge_from e, edge_to e, edge_weight e)) es ++ ls).
Proof.
  induction es as [|e es IH]; intros ss ls; [reflexivity|].
  cbn [map fold_right]. rewrite IH.
  apply (parse_step_line _ (GLink _ _ _)); [|apply parse_link_line].
  unfold link_line. cbn [join app str_L]. discriminate.
Qed.

Lemma parse_segment_lines : forall ns ss ls,
  Forall (fun nd => is_supported (node_sym nd) = true) ns ->
  fold_right parse_step (Some (ss, ls)) (map segment_line ns)
  = Some (map (fun nd => (node_id nd, node_sym nd)) ns ++ ss, ls).
Proof.
  induction ns as [|nd ns IH]; intros ss ls H; [reflexivity|].
  inversion H as [|? ? Hn Hns]; subst.
  cbn [map fold_right]. rewrite IH by exact Hns.
  apply (parse_step_line _ (GSeg _ _)); [|apply parse_segment_line; exact Hn].
  unfold segment_line. cbn [join app str_S]. discriminate.
Qed.

Lemma gfa_lines_no_newline : forall g,
  Forall (fun nd => is_supported (node_sym nd) = true) (g_nodes g) ->
  Forall (fun l => ~ In newline l) (gfa_lines g).
Proof.
  intros g H. unfold gfa_lines. constructor; [const_not_in|].
  apply Forall_app; split; [|apply Forall_app; split].
  - apply Forall_map. eapply Forall_impl; [|exact H]. intros nd Hs.
    apply not_in_join; [discriminate|]. apply segment_fields; [right; reflexivity|].
    destruct (supported_not_tab _ Hs) as [_ Hn]. congruence.
  - apply Forall_map, Forall_forall. intros e _.
    apply not_in_join; [discriminate|]. apply link_fields. right; reflexivity.
  - generalize 0%nat as k. induction (g_records g) as [|r rs IH]; intros k; constructor.
    + apply not_in_join; [discriminate|]. apply path_fields. right; reflexivity.
    + apply IH.
Qed.

(** *** Positions in the topological order *)

Lemma idx_in_lt : forall x l, In x l -> (idx x l < List.length l)%nat.
Proof.
  intros x l. induction l as [|y l IH]; intros H; [destruct H|].
  simpl. destruct (Nat.eqb_spec y x); [lia|].
  destruct H as [H|H]; [congruence|]. specialize (IH H). lia.
Qed.

Lemma in_insert_after : forall q k l x, In x (insert_after q k l) <-> x = k \/ In x l.
Proof.
  intros q k l x. induction l as [|y l IH]; simpl; [split; intros [H|[]]; left; congruence|].
  destruct (Nat.eqb y q); simpl; [|rewrite IH; tauto].
  split; intros [H|[H|H]].
  - right; left; exact H.
  - left; symmetry; exact H.
  - right; right; exact H.
  - right; left; symmetry; exact H.
  - left; exact H.
  - right; right; exact H.
Qed.

Lemma nodup_insert_after : forall q k l, ~ In k l -> NoDup l -> NoDup (insert_after q k l).
Proof.
  intros q k l. induction l as [|y l IH]; intros Hk Hd; simpl.
  - constructor; [intros []|constructor].
  - inversion Hd as [|? ? Hy Hl]; subst.
    destruct (Nat.eqb y q).
    + constructor; [|constructor].
      * intros [H|H]; [apply Hk; left; congruence|exact (Hy H)].
      * intros H. apply Hk. right. exact H.
      * exact Hl.
    + constructor.
      * rewrite in_insert_after. intros [H|H]; [apply Hk; left; congruence|exact (Hy H)].
      * apply IH; [intros H; apply Hk; right; exact H|exact Hl].
Qed.

Lemma idx_insert_after : forall q k l x, In q l -> ~ In k l -> x <> k ->
  idx x (insert_after q k l)
  = if Nat.leb (idx x l) (idx q l) then idx x l else S (idx x l).
Proof.
  intros q k l x. induction l as [|y l IH]; intros Hq Hk Hx; [destruct Hq|].
  cbn [insert_after idx]. destruct (Nat.eqb_spec y q) as [->|Hyq].
  - destruct (Nat.eqb_spec q x) as [->|Hqx]; cbn [idx]; [rewrite Nat.eqb_refl; reflexivity|].
    rewrite (proj2 (Nat.eqb_neq q x) Hqx).
    destruct (Nat.eqb_spec k x) as [->|]; [congruence|]. reflexivity.
  - cbn [idx]. destruct Hq as [Hq|Hq]; [congruence|].
    destruct (Nat.eqb_spec y x) as [->|Hyx]; [reflexivity|].
    rewrite IH by (auto || (intros H; apply Hk; right; exact H)).
    destruct (Nat.leb_spec (idx x l) (idx q l)); destruct (Nat.leb_spec (S (idx x l)) (S (idx q l)));
      (reflexivity || lia).
Qed.

Lemma idx_insert_after_new : forall q k l, In q l -> ~ In k l ->
  idx k (insert_after q k l) = S (idx q l).
Proof.
  intros q k l. induction l as [|y l IH]; intros Hq Hk; [destruct Hq|].
  cbn [insert_after idx]. destruct (Nat.eqb_spec y q) as [->|Hyq].
  - cbn [idx]. destruct (Nat.eqb_spec q k) as [->|]; [exfalso; apply Hk; left; reflexivity|].
    rewrite Nat.eqb_refl. reflexivity.
  - cbn [idx]. destruct Hq as [Hq|Hq]; [congruence|].
    destruct (Nat.eqb_spec y k) as [->|]; [exfalso; apply Hk; left; reflexivity|].
    rewrite IH; [reflexivity|exact Hq|intros H; apply Hk; right; exact H].
Qed.

Lemma idx_cons_other : forall k l x, k <> x -> idx x (k :: l) = S (idx x l).
Proof. intros k l x H. cbn [idx]. destruct (Nat.eqb_spec k x); [congruence|reflexivity]. Qed.

Lemma place_monotone : forall prev k l x y, ~ In k l ->
  (match prev with Some q => In q l | None => True end) -> In x l -> In y l ->
  (idx x l < idx y l)%nat -> (idx x (place prev k l) < idx y (place prev k l))%nat.
Proof.
  intros prev k l x y Hk Hp Hx Hy H.
  assert (x <> k) by (intros ->; contradiction). assert (y <> k) by (intros ->; contradiction).
  destruct prev as [q|]; cbn [place].
  - rewrite !idx_insert_after by assumption.
    destruct (Nat.leb_spec (idx x l) (idx q l)); destruct (Nat.leb_spec (idx y l) (idx q l)); lia.
  - rewrite !idx_cons_other by congruence. lia.
Qed.

Lemma place_new_before : forall prev k l y, ~ In k l -> In y l ->
  (match prev with
   | Some q => In q l /\ (idx q l < idx y l)%nat
   | None => True
   end) -> (idx k (place prev k l) < idx y (place prev k l))%nat.
Proof.
  intros prev k l y Hk Hy Hp. assert (y <> k) by (intros ->; contradiction).
  destruct prev as [q|]; cbn [place].
  - destruct Hp as [Hq Hlt]. rewrite idx_insert_after_new, idx_insert_after by assumption.
    destruct (Nat.leb_spec (idx y l) (idx q l)); lia.
  - rewrite (idx_cons_other k l y) by congruence. cbn [idx]. rewrite Nat.eqb_refl. lia.
Qed.

Lemma place_after_prev : forall q k l, In q l -> ~ In k l ->
  (idx q (place (Some q) k l) < idx k (place (Some q) k l))%nat.
Proof.
  intros q k l Hq Hk. cbn [place]. assert (q <> k) by (intros ->; contradiction).
  rewrite idx_insert_after_new, idx_insert_after by assumption.
  rewrite Nat.leb_refl. lia.
Qed.

Lemma in_place : forall prev k l x, In x (place prev k l) <-> x = k \/ In x l.
Proof.
  intros [q|] k l x; cbn [place]; [apply in_insert_after|simpl; intuition congruence].
Qed.

Lemma nodup_place : forall prev k l, ~ In k l -> NoDup l -> NoDup (place prev k l).
Proof.
  intros [q|] k l Hk Hd; cbn [place]; [apply nodup_insert_after; assumption|constructor; assumption].
Qed.

(** *** The graph operations keep the graph well formed *)

Lemma add_edge_parts : forall g a b w,
  g_nodes (add_edge g a b w) = g_nodes g /\ g_order (add_edge g a b w) = g_order g /\
  (forall e', In e' (g_edges (add_edge g a b w)) ->
     (exists e, In e (g_edges g) /\ edge_from e = edge_from e' /\ edge_to e = edge_to e') \/
     (edge_from e' = a /\ edge_to e' = b)) /\
  (forall x y, edge_rel g x y -> edge_rel (add_edge g a b w) x y).
Proof.
  intros g a b w. unfold add_edge.
  destruct (existsb _ (g_edges g)) eqn:E; cbn [g_nodes g_order g_edges];
    (split; [reflexivity|]); (split; [reflexivity|]); split.
  - intros e' He'. apply in_map_iff in He' as [e [He Hin]].
    destruct (Nat.eqb (edge_from e) a && Nat.eqb (edge_to e) b) eqn:Es.
    + right. subst e'. split; reflexivity.
    + left. exists e. subst e'. auto.
  - intros x y [e [He [Hx Hy]]].
    exists (if Nat.eqb (edge_from e) a && Nat.eqb (edge_to e) b
            then mkEdge a b (edge_weight e + w) else e).
    split; [apply (proj2 (in_map_iff _ _ _)); exists e; split; [reflexivity|exact He]|].
    destruct (Nat.eqb_spec (edge_from e) a); destruct (Nat.eqb_spec (edge_to e) b); cbn;
      split; congruence.
  - intros e' He'. apply in_app_iff in He' as [He'|[He'|[]]].
    + left. exists e'. auto.
    + right. subst e'. split; reflexivity.
  - intros x y [e [He [Hx Hy]]]. exists e. split; [apply (proj2 (in_app_iff _ _ _)); left; exact He|auto].
Qed.

Lemma wf_add_edge : forall g a b w, wf g -> In a (g_order g) -> In b (g_order g) ->
  (idx a (g_order g) < idx b (g_order g))%nat -> wf (add_edge g a b w).
Proof.
  intros g a b w [Hid [Hnd [Hin [He Hsym]]]] Ha Hb Hab.
  destruct (add_edge_parts g a b w) as [Hn [Ho [Hed _]]].
  unfold wf. rewrite Hn, Ho.
  split; [exact Hid|]. split; [exact Hnd|]. split; [exact Hin|]. split; [|exact Hsym].
  intros e' He'. destruct (Hed e' He') as [[e [Hi [Hf Ht]]]|[Hf Ht]].
  - rewrite <- Hf, <- Ht. apply He. exact Hi.
  - rewrite Hf, Ht. auto.
Qed.

Lemma bump_node_ids : forall g n w,
  map node_id (g_nodes (bump_node g n w)) = map node_id (g_nodes g).
Proof.
  intros g n w. unfold bump_node. cbn [g_nodes]. rewrite map_map.
  apply map_ext. intros x. destruct (Nat.eqb_spec (node_id x) n); cbn; congruence.
Qed.

Lemma wf_bump_node : forall g n w, wf g -> wf (bump_node g n w).
Proof.
  intros g n w [Hid [Hnd [Hin [He Hsym]]]].
  assert (Hl : List.length (g_nodes (bump_node g n w)) = List.length (g_nodes g))
    by (unfold bump_node; cbn [g_nodes]; apply length_map).
  unfold wf. rewrite Hl, bump_node_ids.
  split; [exact Hid|]. split; [exact Hnd|]. split; [exact Hin|]. split; [exact He|].
  unfold bump_node. cbn [g_nodes]. apply Forall_map. eapply Forall_impl; [|exact Hsym].
  intros x Hx. destruct (Nat.eqb (node_id x) n); exact Hx.
Qed.

Lemma wf_link : forall g prev n w, wf g ->
  (match prev with
   | Some q => In q (g_order g) /\ In n (g_order g) /\ (idx q (g_order g) < idx n (g_order g))%nat
   | None => True
   end) -> wf (link g prev n w).
Proof.
  intros g [q|] n w Hw Hp; cbn [link]; [|exact Hw].
  destruct Hp as [Hq [Hn Hlt]]. apply wf_add_edge; assumption.
Qed.

Lemma link_parts : forall g prev n w,
  g_nodes (link g prev n w) = g_nodes g /\ g_order (link g prev n w) = g_order g /\
  (forall x y, edge_rel g x y -> edge_rel (link g prev n w) x y).
Proof.
  intros g [q|] n w; cbn [link].
  - destruct (add_edge_parts g q n w) as [? [? [_ ?]]]. auto.
  - auto.
Qed.

Lemma wf_add_node : forall g prev c w, wf g -> is_supported c = true ->
  (match prev with Some q => In q (g_order g) | None => True end) ->
  let k := List.length (g_nodes g) in
  fst (add_node g prev c w) = mkGraph (g_nodes g ++ [mkNode k c w]) (g_edges g)
                                      (place prev k (g_order g)) (g_records g) /\
  snd (add_node g prev c w) = k /\ ~ In k (g_order g) /\
  wf (fst (add_node g prev c w)).
Proof.
  intros g prev c w [Hid [Hnd [Hin [He Hsym]]]] Hc Hp k.
  assert (Hk : ~ In k (g_order g)) by (intros H; apply Hin in H; unfold k in H; lia).
  assert (Hg : fst (add_node g prev c w) = mkGraph (g_nodes g ++ [mkNode k c w]) (g_edges g)
                                      (place prev k (g_order g)) (g_records g))
    by (destruct prev; reflexivity).
  split; [exact Hg|]. split; [reflexivity|]. split; [exact Hk|].
  rewrite Hg. unfold wf. cbn [g_nodes g_edges g_order].
  rewrite length_app. cbn [List.length]. split; [|split; [|split; [|split]]].
  - rewrite map_app, Hid. rewrite Nat.add_1_r, seq_S. reflexivity.
  - apply nodup_place; assumption.
  - intros x. rewrite in_place, Hin. unfold k. lia.
  - intros e Hi. destruct (He e Hi) as [Ha [Hb Hab]].
    split; [apply in_place; right; exact Ha|]. split; [apply in_place; right; exact Hb|].
    apply place_monotone; assumption.
  - apply Forall_app. split; [exact Hsym|]. constructor; [exact Hc|constructor].
Qed.

(** *** Alignment paths follow the topological order *)

Lemma node_ids_cons : forall o r, node_ids (o :: r) =
  match o with OMatch n | ODel n => n :: node_ids r | OIns => node_ids r end.
Proof. intros [n| |n] r; reflexivity. Qed.

Lemma consumed_cons : forall o r, consumed (o :: r) =
  match o with OMatch _ | OIns => S (consumed r) | ODel _ => consumed r end.
Proof. intros [n| |n] r; reflexivity. Qed.

Lemma preds_edge : forall g q n, In (VNode q) (preds g n) ->
  exists e, In e (g_edges g) /\ edge_from e = q /\ edge_to e = n.
Proof.
  intros g q n H. unfold preds in H. apply in_app_iff in H as [H|H].
  - destruct (existsb _ _) in H; [destruct H as [H|[]]; discriminate|destruct H].
  - apply in_map_iff in H as [q' [Hq Hi]]. inversion Hq; subst q'.
    unfold pred_ids in Hi. apply in_map_iff in Hi as [e [He Hi]]. apply filter_In in Hi as [Hi Ht].
    exists e. split; [exact Hi|]. split; [exact He|]. apply Nat.eqb_eq. exact Ht.
Qed.

Section Walks.

Variable g : graph.
Hypothesis Hwf : wf g.

Lemma walk_sorted : forall ops v, walk g v ops ->
  ForallOrdPairs (fun a b => (idx a (g_order g) < idx b (g_order g))%nat) (node_ids ops) /\
  (forall q, v = VNode q -> forall n, In n (node_ids ops) -> (idx q (g_order g) < idx n (g_order g))%nat).
Proof.
  destruct Hwf as [_ [_ [_ [He _]]]].
  induction ops as [|o ops IH]; intros v Hw.
  - split; [constructor|intros q _ n []].
  - rewrite node_ids_cons.
    destruct o as [n| |n]; cbn [walk] in Hw;
      [destruct Hw as [Hp Hw]|exact (IH v Hw)|destruct Hw as [Hp Hw]];
      destruct (IH (VNode n) Hw) as [Hs Hn]; specialize (Hn n eq_refl);
      (split; [constructor; [apply Forall_forall; exact Hn|exact Hs]|]);
      intros q -> m Hm; destruct (preds_edge g q n Hp) as [e [Hi [Hf Ht]]];
      destruct (He e Hi) as [_ [_ Hlt]]; rewrite Hf, Ht in Hlt;
      (destruct Hm as [<-|Hm]; [exact Hlt|specialize (Hn m Hm); lia]).
Qed.

Lemma walk_head : forall r v, walk g v r ->
  match node_ids r with [] => last_vtx v r = v | m :: _ => In v (preds g m) end.
Proof.
  induction r as [|o r IH]; intros v Hw; [reflexivity|].
  rewrite node_ids_cons. destruct o as [n| |n]; cbn [walk last_vtx] in *.
  - exact (proj1 Hw).
  - exact (IH v Hw).
  - exact (proj1 Hw).
Qed.

Lemma walk_real : forall ops v, walk g v ops ->
  match last_vtx v ops with VStart => True | VNode n => In n (g_order g) end ->
  forall n, In n (node_ids ops) -> In n (g_order g).
Proof.
  destruct Hwf as [_ [_ [_ [He _]]]].
  induction ops as [|o ops IH]; intros v Hw Hl n Hn; [destruct Hn|].
  rewrite node_ids_cons in Hn.
  destruct o as [m| |m]; cbn [walk last_vtx] in Hw, Hl;
    [destruct Hw as [_ Hw]|exact (IH v Hw Hl n Hn)|destruct Hw as [_ Hw]];
    (destruct Hn as [<-|Hn]; [|exact (IH _ Hw Hl n Hn)]);
    pose proof (walk_head ops (VNode m) Hw) as Hh;
    (destruct (node_ids ops) as [|x l];
     [rewrite Hh in Hl; exact Hl
     |destruct (preds_edge g m x Hh) as [e [Hi [Hf _]]]; rewrite <- Hf; apply (He e Hi)]).
Qed.

End Walks.

(** *** The mutator keeps the graph well formed *)

Lemma ForallOrdPairs_impl : forall (R R' : nat -> nat -> Prop) l,
  (forall a b, In a l -> In b l -> R a b -> R' a b) -> ForallOrdPairs R l -> ForallOrdPairs R' l.
Proof.
  intros R R' l. induction l as [|x l IH]; intros Himp H; [constructor|].
  inversion H as [|? ? Hx Hl]; subst. constructor.
  - rewrite Forall_forall in *. intros y Hy. apply Himp; [left; reflexivity|right; exact Hy|].
    apply Hx. exact Hy.
  - apply IH; [|exact Hl]. intros a b Ha Hb. apply Himp; right; assumption.
Qed.

Lemma new_node_inv : forall s w st rest,
  forallb is_supported s = true -> wf (ms_graph st) ->
  (ms_pos st < List.length s)%nat -> (S (ms_pos st) + consumed rest = List.length s)%nat ->
  (forall n, In n (node_ids rest) -> In n (g_order (ms_graph st))) ->
  ForallOrdPairs (fun a b => (idx a (g_order (ms_graph st)) < idx b (g_order (ms_graph st)))%nat)
                 (node_ids rest) ->
  match ms_prev st with
  | Some q => In q (g_order (ms_graph st)) /\
              forall n, In n (node_ids rest) ->
                (idx q (g_order (ms_graph st)) < idx n (g_order (ms_graph st)))%nat
  | None => True
  end ->
  mut_inv s (use_node w st (fst (add_node (ms_graph st) (ms_prev st) (nth (ms_pos st) s " "%char) w))
                         (snd (add_node (ms_graph st) (ms_prev st) (nth (ms_pos st) s " "%char) w)))
          rest.
Proof.
  intros s w [G prev path pos] rest Hs Hwf Hlt Hpos Hreal Hsort Hprev.
  cbn [ms_graph ms_prev ms_pos ms_path] in *.
  set (c := nth pos s " "%char).
  assert (Hc : is_supported c = true)
    by (apply (proj1 (forallb_forall _ _) Hs); apply nth_In; exact Hlt).
  assert (Hq : match prev with Some q => In q (g_order G) | None => True end)
    by (destruct prev; [exact (proj1 Hprev)|exact I]).
  destruct (wf_add_node G prev c w Hwf Hc Hq) as [Hg [Hk [Hnk Hwf1]]].
  rewrite Hk. set (k := List.length (g_nodes G)) in *.
  set (G1 := fst (add_node G prev c w)) in *.
  assert (Ho1 : g_order G1 = place prev k (g_order G)) by (rewrite Hg; reflexivity).
  unfold use_node, mut_inv. cbn [ms_graph ms_prev ms_pos ms_path].
  destruct (link_parts G1 prev k w) as [_ [Ho _]]. rewrite Ho, Ho1.
  split; [|split; [|split; [|split]]].
  - apply wf_link; [exact Hwf1|]. destruct prev as [q|]; [|exact I].
    rewrite Ho1. split; [apply in_place; right; exact Hq|].
    split; [apply in_place; left; reflexivity|]. apply place_after_prev; assumption.
  - intros n Hn. apply in_place. right. apply Hreal. exact Hn.
  - eapply ForallOrdPairs_impl; [|exact Hsort]. intros a b Ha Hb Hab.
    apply place_monotone; auto.
  - split; [apply in_place; left; reflexivity|]. intros n Hn.
    apply place_new_before; [exact Hnk|apply Hreal; exact Hn|].
    destruct prev as [q|]; [|exact I]. split; [exact Hq|]. apply (proj2 Hprev). exact Hn.
  - lia.
Qed.

Lemma mutate_step_inv : forall s w st o rest, forallb is_supported s = true ->
  mut_inv s st (o :: rest) -> mut_inv s (mutate_step s w st o) rest.
Proof.
  intros s w st o rest Hs [Hwf [Hreal [Hsort [Hprev Hpos]]]].
  rewrite node_ids_cons in Hreal, Hsort, Hprev. rewrite consumed_cons in Hpos.
  destruct o as [n| |n]; unfold mutate_step.
  - inversion Hsort as [|? ? Hn Hsort']; subst.
    assert (Hrest : forall m, In m (node_ids rest) -> In m (g_order (ms_graph st)))
      by (intros m Hm; apply Hreal; right; exact Hm).
    assert (Hprev' : match ms_prev st with
               | Some q => In q (g_order (ms_graph st)) /\
                           forall m, In m (node_ids rest) ->
                             (idx q (g_order (ms_graph st)) < idx m (g_order (ms_graph st)))%nat
               | None => True end)
      by (destruct (ms_prev st); [destruct Hprev as [Hq Hm]; split; [exact Hq|]; intros m Hi;
                                  apply Hm; right; exact Hi|exact I]).
    destruct (Ascii.eqb _ _).
    + unfold use_node, mut_inv. cbn [ms_graph ms_prev ms_pos ms_path].
      destruct (link_parts (bump_node (ms_graph st) n w) (ms_prev st) n w) as [_ [Ho _]].
      rewrite Ho. change (g_order (bump_node (ms_graph st) n w)) with (g_order (ms_graph st)).
      split; [|split; [exact Hrest|split; [exact Hsort'|split]]].
      * apply wf_link; [apply wf_bump_node; exact Hwf|].
        change (g_order (bump_node (ms_graph st) n w)) with (g_order (ms_graph st)).
        destruct (ms_prev st) as [q|]; [|exact I].
        destruct Hprev as [Hq Hm]. split; [exact Hq|]. split; [apply Hreal; left; reflexivity|].
        apply Hm. left. reflexivity.
      * split; [apply Hreal; left; reflexivity|]. intros m Hm.
        rewrite Forall_forall in Hn. apply Hn. exact Hm.
      * lia.
    + apply new_node_inv; auto. lia. lia.
  - apply new_node_inv; auto; lia.
  - inversion Hsort as [|? ? Hn Hsort']; subst.
    unfold mut_inv. split; [exact Hwf|]. split; [intros m Hm; apply Hreal; right; exact Hm|].
    split; [exact Hsort'|]. split; [|exact Hpos].
    destruct (ms_prev st); [|exact I]. destruct Hprev as [Hq Hm].
    split; [exact Hq|]. intros m Hi. apply Hm. right. exact Hi.
Qed.

Lemma mutate_fold_inv : forall s w ops st, forallb is_supported s = true ->
  mut_inv s st ops -> mut_inv s (fold_left (mutate_step s w) ops st) [].
Proof.
  intros s w ops. induction ops as [|o ops IH]; intros st Hs H; [exact H|].
  cbn [fold_left]. apply IH; [exact Hs|]. apply mutate_step_inv; assumption.
Qed.

(** *** Recorded paths stay in the graph *)

Lemma end_preds_real : forall g v, paths_in g -> In v (end_preds g) ->
  match v with VStart => True | VNode n => In n (g_order g) end.
Proof.
  intros g v Hp H. unfold end_preds in H.
  destruct (end_ids g) as [|x l] eqn:E.
  - destruct H as [<-|[]]. exact I.
  - rewrite <- E in H. apply in_map_iff in H as [n [<- Hn]].
    unfold end_ids in Hn. apply in_flat_map in Hn as [r [Hr Hn]].
    destruct (rev (rec_path r)) as [|y l'] eqn:Er; [destruct Hn|].
    destruct Hn as [<-|[]]. apply (Hp r y Hr).
    apply (proj2 (in_rev (rec_path r) y)). rewrite Er. left. reflexivity.
Qed.

Lemma link_records : forall g prev n w, g_records (link g prev n w) = g_records g.
Proof.
  intros g [q|] n w; [|reflexivity]. unfold link, add_edge.
  destruct (existsb _ _); reflexivity.
Qed.

Lemma mutate_step_paths : forall s w st o rest,
  mut_inv s st (o :: rest) ->
  paths_in (ms_graph st) -> (forall n, In n (ms_path st) -> In n (g_order (ms_graph st))) ->
  paths_in (ms_graph (mutate_step s w st o)) /\
  (forall n, In n (ms_path (mutate_step s w st o)) -> In n (g_order (ms_graph (mutate_step s w st o)))).
Proof.
  intros s w st o rest Hinv Hp Hpath.
  assert (Hgen : forall G' m, g_records G' = g_records (ms_graph st) ->
     (forall x, In x (g_order (ms_graph st)) -> In x (g_order G')) -> In m (g_order G') ->
     paths_in G' /\ (forall n, In n (ms_path st ++ [m]) -> In n (g_order G'))).
  { intros G' m Hr Hg Hm. split.
    - intros r n Hri Hn. rewrite Hr in Hri. apply Hg. exact (Hp r n Hri Hn).
    - intros n Hn. apply in_app_iff in Hn as [Hn|[<-|[]]]; [apply Hg, Hpath, Hn|exact Hm]. }
  assert (Hnew : forall c,
    let st' := use_node w st (fst (add_node (ms_graph st) (ms_prev st) c w))
                             (snd (add_node (ms_graph st) (ms_prev st) c w)) in
    paths_in (ms_graph st') /\ (forall n, In n (ms_path st') -> In n (g_order (ms_graph st')))).
  { intros c st'. subst st'. unfold use_node. cbn [ms_graph ms_path].
    set (k := snd (add_node (ms_graph st) (ms_prev st) c w)).
    set (G1 := fst (add_node (ms_graph st) (ms_prev st) c w)).
    assert (Ho1 : g_order G1 = place (ms_prev st) k (g_order (ms_graph st)))
      by (unfold G1, k, add_node, place; destruct (ms_prev st); reflexivity).
    destruct (link_parts G1 (ms_prev st) k w) as [_ [Ho _]].
    apply Hgen.
    - rewrite link_records. unfold G1, add_node. destruct (ms_prev st); reflexivity.
    - intros x Hx. rewrite Ho, Ho1. apply in_place. right. exact Hx.
    - rewrite Ho, Ho1. apply in_place. left. reflexivity. }
  destruct Hinv as [_ [Hreal _]]. rewrite node_ids_cons in Hreal.
  destruct o as [n| |n]; unfold mutate_step.
  - destruct (Ascii.eqb _ _); [|exact (Hnew _)].
    unfold use_node. cbn [ms_graph ms_path].
    destruct (link_parts (bump_node (ms_graph st) n w) (ms_prev st) n w) as [_ [Ho _]].
    apply Hgen.
    + rewrite link_records. reflexivity.
    + intros x Hx. rewrite Ho. exact Hx.
    + rewrite Ho. apply Hreal. left. reflexivity.
  - exact (Hnew _).
  - split; assumption.
Qed.

Lemma mutate_fold_paths : forall s w ops st, forallb is_supported s = true ->
  mut_inv s st ops ->
  paths_in (ms_graph st) -> (forall n, In n (ms_path st) -> In n (g_order (ms_graph st))) ->
  paths_in (ms_graph (fold_left (mutate_step s w) ops st)) /\
  (forall n, In n (ms_path (fold_left (mutate_step s w) ops st)) ->
             In n (g_order (ms_graph (fold_left (mutate_step s w) ops st)))).
Proof.
  intros s w ops. induction ops as [|o ops IH]; intros st Hs Hinv Hp Hpath; [split; assumption|].
  cbn [fold_left]. destruct (mutate_step_paths s w st o ops Hinv Hp Hpath) as [H1 H2].
  apply IH; [exact Hs| |exact H1|exact H2]. apply mutate_step_inv; assumption.
Qed.

Lemma valid_sequence_supported : forall s, valid_sequence s = true -> forallb is_supported s = true.
Proof. intros [|c s] H; [discriminate|exact H]. Qed.

Lemma wf_add_sequence : forall g s w p, wf g -> paths_in g ->
  wf (snd (add_sequence_weighted g s w p)) /\ paths_in (snd (add_sequence_weighted g s w p)).
Proof.
  intros g s w p Hwf Hpi. unfold add_sequence_weighted.
  destruct (valid_sequence s) eqn:Hs; cbn [negb]; [|split; assumption].
  destruct (valid_scoring p); cbn [negb]; [|split; assumption].
  destruct (align g s p) as [[z ops]|] eqn:Ha; [|split; assumption].
  destruct (align_ok g s p z ops Ha) as [_ [Hc [Hw [Hend _]]]].
  assert (H0 : mut_inv s (mkMState g None [] 0) ops).
  { unfold mut_inv. cbn [ms_graph ms_prev ms_pos].
    split; [exact Hwf|]. split.
    - apply (walk_real g Hwf ops VStart Hw). apply end_preds_real; assumption.
    - split; [exact (proj1 (walk_sorted g Hwf ops VStart Hw))|]. split; [exact I|]. lia. }
  destruct (mutate_fold_inv s w ops _ (valid_sequence_supported s Hs) H0) as [Hwf' _].
  destruct (mutate_fold_paths s w ops _ (valid_sequence_supported s Hs) H0 Hpi
              ltac:(intros n [])) as [Hp1 Hp2].
  unfold mutate. cbn [snd]. split.
  - unfold wf in *. cbn [g_nodes g_edges g_order]. exact Hwf'.
  - intros r n Hr Hn. cbn [g_records g_order] in Hr |- *.
    apply in_app_iff in Hr as [Hr|[<-|[]]].
    + exact (Hp1 r n Hr Hn).
    + exact (Hp2 n Hn).
Qed.

Lemma reachable_inv : forall g, reachable g -> wf g /\ paths_in g.
Proof.
  intros g H. induction H as [|g s w p _ [IH1 IH2]].
  - split; [|intros r n []].
    unfold wf. cbn. split; [reflexivity|]. split; [constructor|].
    split; [intros x; split; [intros []|lia]|]. split; [intros e []|constructor].
  - apply wf_add_sequence; assumption.
Qed.

Lemma reachable_wf : forall g, reachable g -> wf g.
Proof. intros g H. exact (proj1 (reachable_inv g H)). Qed.

Lemma mutate_step_mono : forall s w st o,
  (forall x, In x (map node_id (g_nodes (ms_graph st))) ->
             In x (map node_id (g_nodes (ms_graph (mutate_step s w st o))))) /\
  (forall a b, edge_rel (ms_graph st) a b -> edge_rel (ms_graph (mutate_step s w st o)) a b).
Proof.
  intros s w st o.
  assert (Hnew : forall prev c,
    (forall x, In x (map node_id (g_nodes (ms_graph st))) ->
       In x (map node_id (g_nodes (ms_graph
         (use_node w st (fst (add_node (ms_graph st) prev c w))
                         (snd (add_node (ms_graph st) (ms_prev st) c w))))))) /\
    (forall a b, edge_rel (ms_graph st) a b ->
       edge_rel (ms_graph (use_node w st (fst (add_node (ms_graph st) prev c w))
                                       (snd (add_node (ms_graph st) (ms_prev st) c w)))) a b)).
  { intros prev c. unfold use_node. cbn [ms_graph].
    destruct (link_parts (fst (add_node (ms_graph st) prev c w)) (ms_prev st)
                (snd (add_node (ms_graph st) (ms_prev st) c w)) w) as [Hn [_ He]].
    rewrite Hn. split.
    - intros x Hx. destruct prev; cbn [fst add_node g_nodes]; rewrite map_app;
        apply in_app_iff; left; exact Hx.
    - intros a b Hab. apply He. destruct prev; exact Hab. }
  destruct o as [n| |n]; unfold mutate_step.
  - destruct (Ascii.eqb _ _); [|apply Hnew].
    unfold use_node. cbn [ms_graph].
    destruct (link_parts (bump_node (ms_graph st) n w) (ms_prev st) n w) as [Hn [_ He]].
    rewrite Hn, bump_node_ids. split; [auto|]. intros a b Hab. apply He. exact Hab.
  - apply Hnew.
  - split; auto.
Qed.

Lemma add_sequence_mono : forall g s w p,
  (forall x, In x (map node_id (g_nodes g)) ->
             In x (map node_id (g_nodes (snd (add_sequence_weighted g s w p))))) /\
  (forall a b, edge_rel g a b -> edge_rel (snd (add_sequence_weighted g s w p)) a b).
Proof.
  intros g s w p. unfold add_sequence_weighted.
  destruct (negb (valid_sequence s)); [split; auto|].
  destruct (negb (valid_scoring p)); [split; auto|].
  destruct (align g s p) as [[z ops]|]; [|split; auto].
  cbn [snd]. unfold mutate.
  assert (H : forall st, 
    (forall x, In x (map node_id (g_nodes (ms_graph st))) ->
       In x (map node_id (g_nodes (ms_graph (fold_left (mutate_step s w) ops st))))) /\
    (forall a b, edge_rel (ms_graph st) a b ->
       edge_rel (ms_graph (fold_left (mutate_step s w) ops st)) a b)).
  { induction ops as [|o ops IH]; intros st; [split; auto|].
    cbn [fold_left]. destruct (mutate_step_mono s w st o) as [H1 H2].
    destruct (IH (mutate_step s w st o)) as [H3 H4]. split; auto. }
  destruct (H (mkMState g None [] 0)) as [H1 H2]. cbn [ms_graph] in H1, H2.
  split; [exact H1|]. intros a b Hab. exact (H2 a b Hab).
Qed.

Lemma edge_path_forward : forall g a b, wf g -> clos_trans nat (edge_rel g) a b ->
  (idx a (g_order g) < idx b (g_order g))%nat.
Proof.
  intros g a b [_ [_ [_ [He _]]]] H. induction H as [x y [e [Hi [Hf Ht]]]|x y z _ IH1 _ IH2].
  - subst. apply (He e Hi).
  - lia.
Qed.

(** C1: a non-empty sequence over the supported alphabet, inserted alone
    into a freshly created graph, is accepted and GetMSA returns exactly
    one string, the sequence itself, which has no gap symbol. *)
Theorem single_sequence_msa : forall s p,
  valid_sequence s = true -> valid_scoring p = true ->
  fst (add_sequence poasta_create_graph s p) = Ok /\
  poasta_get_msa (snd (add_sequence poasta_create_graph s p)) = [s] /\ ~ In gap_char s.
Proof.
  intros s p Hs Hp. unfold add_sequence. rewrite first_insert by assumption.
  split; [reflexivity|]. split; [apply msa_chain_single|apply valid_sequence_no_gap; exact Hs].
Qed.

Lemma single_sequence_msa_witness :
  valid_sequence acgt = true /\ valid_scoring scenario_scoring = true /\
  poasta_get_msa (snd (add_sequence poasta_create_graph acgt scenario_scoring)) = [acgt].
Proof.
  split; [reflexivity|]. split; [reflexivity|].
  exact (proj1 (proj2 (single_sequence_msa acgt scenario_scoring eq_refl eq_refl))).
Defined.




(** C3: for every alignment the aligner returns, the score of the best end
    cell of the DP recurrence, which is the maximum over the end cells,
    equals the sum of the match, mismatch, gap open and gap extend
    contributions along the returned traceback path. *)
Theorem dp_score_equals_path_score : forall g s p z ops,
  align g s p = Some (z, ops) ->
  path_score g s p ops = z /\
  (forall c z', In c (end_cells g s) -> score g s p (align_fuel g s) c = Some z' -> z' <= z).
Proof.
  intros g s p z ops H. destruct (align_ok g s p z ops H) as [Hps [_ [_ [_ Hmax]]]].
  split; assumption.
Qed.

Lemma dp_score_equals_path_score_witness :
  align acgt_graph act scenario_scoring
  = Some (-5, [OMatch 0; OMatch 1; ODel 2; OMatch 3]) /\
  path_score acgt_graph act scenario_scoring [OMatch 0; OMatch 1; ODel 2; OMatch 3] = -5.
Proof.
  assert (H : align acgt_graph act scenario_scoring
              = Some (-5, [OMatch 0; OMatch 1; ODel 2; OMatch 3])) by (vm_compute; reflexivity).
  split; [exact H|]. exact (proj1 (dp_score_equals_path_score _ _ _ _ _ H)).
Defined.

(** C6: [addEdge] on an existing edge keeps the number of edges and adds
    the requested amount to the weight of that edge; and inserting the same
    valid sequence twice into the empty graph gives exactly one node per
    residue, all of weight 2, and one edge per consecutive pair, pairwise
    distinct and all of weight 2. *)
Theorem edge_reuse_no_duplicate :
  (forall g a b w,
     existsb (fun e => Nat.eqb (edge_from e) a && Nat.eqb (edge_to e) b) (g_edges g) = true ->
     List.length (g_edges (add_edge g a b w)) = List.length (g_edges g) /\
     map edge_weight (edges_between (add_edge g a b w) a b)
     = map (fun x => (x + w)%nat) (map edge_weight (edges_between g a b))) /\
  (forall s p,
     valid_sequence s = true -> valid_scoring p = true ->
     0 <= mismatch_score p -> 0 <= gap_extend p ->
     let g2 := insert_times 2 s p poasta_create_graph in
     List.length (g_nodes g2) = List.length s /\
     Forall (fun n => node_weight n = 2%nat) (g_nodes g2) /\
     List.length (g_edges g2) = (List.length s - 1)%nat /\
     Forall (fun e => edge_weight e = 2%nat) (g_edges g2) /\
     NoDup (map (fun e => (edge_from e, edge_to e)) (g_edges g2))).
Proof.
  split; [exact add_edge_existing|].
  intros s p Hs Hp Hm He g2. subst g2.
  destruct (insert_times_chain 2 s p Hs Hp Hm He ltac:(lia)) as [recs [_ ->]].
  split; [|split; [|split; [|split]]].
  - unfold chain_graph, chain_graph_gen. cbn [g_nodes]. rewrite length_map, length_seq. reflexivity.
  - unfold chain_graph, chain_graph_gen. cbn [g_nodes]. apply Forall_map, Forall_forall. reflexivity.
  - unfold chain_graph, chain_graph_gen. cbn [g_edges]. rewrite length_map, length_seq. reflexivity.
  - unfold chain_graph, chain_graph_gen. cbn [g_edges]. apply Forall_map, Forall_forall. reflexivity.
  - apply chain_edges_nodup.
Qed.

Lemma edge_reuse_no_duplicate_witness :
  List.length (g_edges (add_edge acgt_graph 0%nat 1%nat 1%nat)) = 3%nat /\
  List.length (g_nodes (insert_times 2 acgt scenario_scoring poasta_create_graph)) = 4%nat.
Proof.
  split.
  - exact (proj1 (proj1 edge_reuse_no_duplicate acgt_graph 0%nat 1%nat 1%nat eq_refl)).
  - exact (proj1 (proj2 edge_reuse_no_duplicate acgt scenario_scoring eq_refl eq_refl
                    ltac:(vm_compute; discriminate) ltac:(vm_compute; discriminate))).
Defined.

(** C7: the aligner is a function of the graph, the sequence and the
    scoring, so two runs on equal inputs return the same score and path;
    and every choice among candidate cells takes a candidate of maximum
    score and, among those, one whose matrix comes first in the order
    M, Y, X and, at equal matrix, whose row has the lowest node identifier
    (the start sentinel before every node). *)
Theorem alignment_deterministic :
  (forall g1 g2 s1 s2 p1 p2, g1 = g2 -> s1 = s2 -> p1 = p2 ->
     align g1 s1 p1 = align g2 s2 p2) /\
  (forall l m v j z, choose l = Some ((m, v, j), z) ->
     In ((m, v, j), Some z) l /\
     forall m' v' j' z', In ((m', v', j'), Some z') l ->
       z' < z \/
       (z' = z /\ (mat_rank m < mat_rank m' \/
                   (mat_rank m = mat_rank m' /\ vtx_rank v <= vtx_rank v'))%nat)).
Proof.
  split.
  - intros g1 g2 s1 s2 p1 p2 -> -> ->. reflexivity.
  - intros l m v j z H. destruct (choose_some l _ z H) as [Hin Hmax].
    split; [exact Hin|].
    intros m' v' j' z' Hi. destruct (Hmax _ _ Hi) as [Hlt|[Heq Hk]]; [left; exact Hlt|].
    right. split; [exact Heq|]. exact (key_lt_false _ _ _ _ _ _ Hk).
Qed.

Lemma alignment_deterministic_witness :
  choose tie_cands = Some ((MM, VNode 2, 1%nat), 2) /\
  align acgt_graph act scenario_scoring
  = align acgt_graph act scenario_scoring /\
  In ((MM, VNode 2, 1%nat), Some 2) tie_cands.
Proof.
  assert (H : choose tie_cands = Some ((MM, VNode 2, 1%nat), 2)) by (vm_compute; reflexivity).
  split; [exact H|]. split.
  - exact (proj1 alignment_deterministic _ _ _ _ _ _ eq_refl eq_refl eq_refl).
  - exact (proj1 (proj2 alignment_deterministic tie_cands MM (VNode 2) 1%nat 2 H)).
Defined.

(** C4 (as stated, refuted): the claim asks for InvalidSequence exactly
    when the sequence is invalid and for InvalidScoring whenever the scoring
    is inconsistent; an empty sequence with gap extend 8 above gap open 2
    gets InvalidSequence, not InvalidScoring, since only one status is
    returned. *)
Lemma validation_counterexample :
  gap_open gap_heavy_scoring < gap_extend gap_heavy_scoring /\
  fst (add_sequence poasta_create_graph [] gap_heavy_scoring) = InvalidSequence /\
  fst (add_sequence poasta_create_graph [] gap_heavy_scoring) <> InvalidScoring.
Proof. vm_compute. split; [reflexivity|]. split; [reflexivity|discriminate]. Qed.

(** C4 (amended): AddSequenceWeighted (and so AddSequence) returns
    InvalidSequence exactly when the sequence is empty or has a symbol
    outside the supported alphabet, returns InvalidScoring exactly when the
    sequence is valid and gap extend exceeds gap open, and leaves the graph
    unchanged in both cases. *)
Theorem validation_before_mutation : forall g s w p,
  (fst (add_sequence_weighted g s w p) = InvalidSequence <->
   s = [] \/ exists c, In c s /\ is_supported c = false) /\
  (fst (add_sequence_weighted g s w p) = InvalidScoring <->
   valid_sequence s = true /\ gap_open p < gap_extend p) /\
  (valid_sequence s = false \/ gap_open p < gap_extend p ->
   snd (add_sequence_weighted g s w p) = g).
Proof.
  intros g s w p.
  assert (Hv : valid_sequence s = false <-> s = [] \/ exists c, In c s /\ is_supported c = false).
  { unfold valid_sequence. destruct s as [|c s]; [split; auto|].
    split.
    - intros H. right. apply Bool.not_true_iff_false in H.
      destruct (existsb (fun x => negb (is_supported x)) (c :: s)) eqn:E.
      + apply existsb_exists in E as [x [Hx Hn]]. exists x. split; [exact Hx|].
        destruct (is_supported x); [discriminate|reflexivity].
      + exfalso. apply H. apply forallb_forall. intros x Hx.
        destruct (is_supported x) eqn:Ex; [reflexivity|].
        assert (existsb (fun x => negb (is_supported x)) (c :: s) = true)
          by (apply existsb_exists; exists x; rewrite Ex; auto).
        congruence.
    - intros [H|[x [Hx Hn]]]; [discriminate|].
      apply Bool.not_true_iff_false. intros H. rewrite forallb_forall in H.
      rewrite (H x Hx) in Hn. discriminate. }
  assert (Hp : valid_scoring p = false <-> gap_open p < gap_extend p).
  { unfold valid_scoring. rewrite <- Bool.not_true_iff_false, Z.leb_le. lia. }
  unfold add_sequence_weighted.
  destruct (valid_sequence s) eqn:Es; destruct (valid_scoring p) eqn:Ep; cbn [negb].
  - assert (N1 : ~ gap_open p < gap_extend p) by (intros H; apply Hp in H; discriminate).
    assert (N2 : ~ (s = [] \/ exists c, In c s /\ is_supported c = false))
      by (intros H; apply Hv in H; discriminate).
    destruct (align g s p) as [[z ops]|]; cbn [fst snd];
      (split; [split; [discriminate|tauto]|split; [split; [discriminate|tauto]|tauto]]).
  - cbn [fst snd]. split; [split; [discriminate|intros H; apply Hv in H; discriminate]|].
    split; [|reflexivity]. split; [|reflexivity]. intros _. split; [reflexivity|apply Hp; reflexivity].
  - cbn [fst snd]. split; [split; [|reflexivity]; intros _; apply Hv; reflexivity|].
    split; [split; [discriminate|intros [H _]; discriminate]|reflexivity].
  - cbn [fst snd]. split; [split; [|reflexivity]; intros _; apply Hv; reflexivity|].
    split; [split; [discriminate|intros [H _]; discriminate]|reflexivity].
Qed.

Lemma validation_before_mutation_witness :
  snd (add_sequence_weighted acgt_graph act 3 gap_heavy_scoring)
  = acgt_graph.
Proof.
  assert (H : gap_open gap_heavy_scoring < gap_extend gap_heavy_scoring) by (vm_compute; reflexivity).
  exact (proj2 (proj2 (validation_before_mutation acgt_graph act 3 gap_heavy_scoring))
           (or_intror H)).
Defined.

(** C8: on the freshly created graph, GetMSA returns no row, and GetGFA
    returns the header line alone, which parses back to a graph with no
    segment and no link. *)
Theorem empty_graph_outputs :
  poasta_get_msa poasta_create_graph = [] /\
  poasta_get_gfa poasta_create_graph = join tab [str_H; str_header] ++ [newline] /\
  parse_gfa (poasta_get_gfa poasta_create_graph) = Some ([], []).
Proof. split; [reflexivity|]. split; vm_compute; reflexivity. Qed.

(** C10: the penalties reach the aligner as [uint8_t] values, in 0..255 and
    reduced modulo 2^8, and the weight as a [uint32_t] value, in
    0..2^32-1 and reduced modulo 2^32: the calls only depend on the
    arguments modulo those powers, and are the identity on the ranges. *)
Theorem c_interface_ranges :
  (forall x, 0 <= to_u8 x < 256) /\ (forall x, 0 <= to_u32 x < 2 ^ 32) /\
  (forall x, 0 <= x < 256 -> to_u8 x = x) /\ (forall x, 0 <= x < 2 ^ 32 -> to_u32 x = x) /\
  to_u8 (-1) = 255 /\ to_u8 256 = 0 /\
  (forall g sq weight mis go ge k1 k2 k3 k4,
     poasta_add_sequence_with_weight g sq (weight + k1 * 2 ^ 32) (mis + k2 * 256)
       (go + k3 * 256) (ge + k4 * 256)
     = add_sequence_weighted g sq (Z.to_nat (to_u32 weight))
         (mkScoring (to_u8 mis) (to_u8 go) (to_u8 ge))) /\
  (forall g sq mis go ge k2 k3 k4,
     poasta_add_sequence g sq (mis + k2 * 256) (go + k3 * 256) (ge + k4 * 256)
     = add_sequence g sq (mkScoring (to_u8 mis) (to_u8 go) (to_u8 ge))).
Proof.
  assert (M8 : forall x k, to_u8 (x + k * 256) = to_u8 x) by (intros; apply Z_mod_plus_full).
  assert (M32 : forall x k, to_u32 (x + k * 2 ^ 32) = to_u32 x) by (intros; apply Z_mod_plus_full).
  split; [intros x; unfold to_u8; apply Z.mod_pos_bound; lia|].
  split; [intros x; unfold to_u32; apply Z.mod_pos_bound; lia|].
  split; [intros x Hx; unfold to_u8; apply Z.mod_small; exact Hx|].
  split; [intros x Hx; unfold to_u32; apply Z.mod_small; exact Hx|].
  split; [reflexivity|]. split; [reflexivity|].
  split.
  - intros. unfold poasta_add_sequence_with_weight. rewrite M32, !M8. reflexivity.
  - intros. unfold poasta_add_sequence. rewrite !M8. reflexivity.
Qed.

Lemma c_interface_ranges_witness :
  to_u8 200 = 200 /\ to_u32 4000000000 = 4000000000.
Proof.
  split.
  - exact (proj1 (proj2 (proj2 c_interface_ranges)) 200 ltac:(lia)).
  - exact (proj1 (proj2 (proj2 (proj2 c_interface_ranges))) 4000000000 ltac:(lia)).
Defined.

(** C9: for every graph whose node symbols are in the supported alphabet
    (as every symbol the mutator stores is), parsing the text of GetGFA
    gives back exactly the nodes (identifier and symbol) and the edges
    (from, to, weight) of the graph, in order. *)
Theorem gfa_roundtrip : forall g,
  Forall (fun nd => is_supported (node_sym nd) = true) (g_nodes g) ->
  parse_gfa (poasta_get_gfa g)
  = Some (map (fun nd => (node_id nd, node_sym nd)) (g_nodes g),
          map (fun e => (edge_from e, edge_to e, edge_weight e)) (g_edges g)).
Proof.
  intros g H. unfold poasta_get_gfa, get_gfa, parse_gfa.
  rewrite split_on_lines by (apply gfa_lines_no_newline; exact H).
  rewrite fold_right_app. cbn [fold_right]. change (parse_step [] (Some ([], []))) with
    (Some (@nil (nat * ascii), @nil (nat * nat * nat))).
  unfold gfa_lines. cbn [fold_right]. rewrite !fold_right_app.
  rewrite parse_path_lines, parse_link_lines, parse_segment_lines by exact H.
  rewrite !app_nil_r. reflexivity.
Qed.

Lemma gfa_roundtrip_witness :
  Forall (fun nd => is_supported (node_sym nd) = true) (g_nodes gfa_sample) /\
  parse_gfa (poasta_get_gfa gfa_sample)
  = Some ([(0%nat, "A"%char); (1%nat, "C"%char); (2%nat, "G"%char); (3%nat, "T"%char)],
          [(0, 1, 2); (1, 2, 1); (2, 3, 1); (1, 3, 1)]%nat).
Proof.
  assert (H : Forall (fun nd => is_supported (node_sym nd) = true) (g_nodes gfa_sample)).
  { vm_compute. repeat constructor. }
  split; [exact H|]. rewrite (gfa_roundtrip gfa_sample H). vm_compute. reflexivity.
Defined.

(** C5: in every graph reachable from the empty graph by insertions, the
    maintained order lists every node exactly once and every edge goes
    forward in it (a topological order), so no node reaches itself along
    edges (the graph is a DAG); and a further insertion removes no node and
    no edge. *)
Theorem reachable_graph_acyclic : forall g, reachable g ->
  (NoDup (g_order g) /\
   (forall x, In x (g_order g) <-> In x (map node_id (g_nodes g))) /\
   (forall e, In e (g_edges g) ->
      In (edge_from e) (g_order g) /\ In (edge_to e) (g_order g) /\
      (idx (edge_from e) (g_order g) < idx (edge_to e) (g_order g))%nat) /\
   (forall a, ~ clos_trans nat (edge_rel g) a a)) /\
  (forall s w p,
     reachable (snd (add_sequence_weighted g s w p)) /\
     (forall x, In x (map node_id (g_nodes g)) ->
                In x (map node_id (g_nodes (snd (add_sequence_weighted g s w p))))) /\
     (forall a b, edge_rel g a b -> edge_rel (snd (add_sequence_weighted g s w p)) a b)).
Proof.
  intros g Hr. pose proof (reachable_wf g Hr) as Hwf.
  split.
  - destruct Hwf as [Hid [Hnd [Hin [He Hs]]]] eqn:Hw.
    split; [exact Hnd|]. split; [|split; [exact He|]].
    + intros x. rewrite Hin, Hid, in_seq. lia.
    + intros a Hc. pose proof (edge_path_forward g a a Hwf Hc). lia.
  - intros s w p. split; [apply reach_add; exact Hr|]. apply add_sequence_mono.
Qed.

Lemma reachable_graph_acyclic_witness :
  reachable two_seq_graph /\ NoDup (g_order two_seq_graph) /\
  g_order two_seq_graph = [0; 1; 2; 4; 3]%nat.
Proof.
  assert (H : reachable two_seq_graph) by (apply reach_add, reach_add, reach_empty).
  split; [exact H|]. split; [exact (proj1 (proj1 (reachable_graph_acyclic two_seq_graph H)))|].
  vm_compute. reflexivity.
Defined.
